(** * advanced_crawler.py: a shallow embedding and its properties

    The crawler keeps a module-level set [visited_urls], renders each page
    with one shared browser driver, and walks links with [fetch_url], a
    recursive function that opens a thread pool per page.  [bfs_crawl] wraps
    it in a queue loop and [web_crawler] is the entry point.

    The module [Crawler] embeds these functions as state-passing
    functions, with the tasks of a pool run one after the other in
    submission order, and as a step function on the calls in progress, in
    which the steps of the workers interleave as a schedule says.  The
    first is one of the schedules of the second
    ([web_crawler_is_a_schedule]).  In both, a call reads the page it asked
    the browser for.  A second step function, [thread_step], separates
    [driver.get] from the read of [driver.page_source], as the one shared
    browser allows; the runs of the first are among its runs
    ([runs_are_runs_with_one_browser]).  URL parsing, the browser and the
    random generator are parameters; the [ValueError] of the URL functions
    is in [anchor_loop] and the definitions named [_checked]. *)

From Stdlib Require Import ZArith Ascii String.
From stdpp Require Import gmap strings list.

Open Scope string_scope.
Open Scope list_scope.
Open Scope nat_scope.

Set Warnings "-register-all".

(** ** Strings *)

(** [str.split(sep)] for a one-character separator: the pieces between the
    separators, of which there is always one more than separators. *)
Fixpoint str_split (sep : ascii) (s : string) : list string :=
  match s with
  | EmptyString => [EmptyString]
  | String c s' =>
      if Ascii.eqb c sep then EmptyString :: str_split sep s'
      else match str_split sep s' with
           | [] => [String c EmptyString]
           | w :: ws => String c w :: ws
           end
  end.

(** [s.count(c)] for a character [c]. *)
Fixpoint count_char (c : ascii) (s : string) : nat :=
  match s with
  | EmptyString => 0
  | String a s' => (if Ascii.eqb a c then 1 else 0) + count_char c s'
  end.

(** [url + ('/' + segment) * k] *)
Fixpoint add_segments (url segment : string) (k : nat) : string :=
  match k with
  | 0 => url
  | S k => add_segments (String.append url (String "/" segment)) segment k
  end.

(** [s.startswith(p)] *)
Definition startswith (s p : string) : bool := String.prefix p s.

(** ** Pages as the parser shows them *)

(** An [<a href=...>] element: its [href] and what [link.get('rel')] returns,
    [None] without a [rel] attribute and else the list of its tokens. *)
Record Anchor := mkAnchor {
  href : string;
  rel : option (list string)
}.

(** An attribute looked up with [tag['name']] of the first matching tag:
    no such tag, a tag without the attribute (the subscript raises
    [KeyError]), or the value. *)
Inductive Attr :=
| NoTag
| NoAttr
| Value (v : string).

(** What [fetch_url] reads from the parsed page source. *)
Record Page := mkPage {
  canonical : Attr;          (* soup.find('link', rel='canonical'), ['href'] *)
  meta_description : Attr;   (* soup.find('meta', name=description), ['content'] *)
  meta_keywords : Attr;      (* soup.find('meta', name=keywords), ['content'] *)
  images : list string;      (* img['src'] over soup.find_all('img', src=True) *)
  anchors : list Anchor      (* soup.find_all('a', href=True) *)
}.

(** A row of [save_results]:
    [(url, meta_description, meta_keywords, images)]. *)
Definition Row : Type := string * string * string * list string.

Definition row_url (r : Row) : string := r.1.1.1.

(** ** Spider traps *)

(** [len(set(url.split('/'))) < len(url.split('/')) / 2].  The division is
    Python's true division; both sides are small integers or halves of
    them, so the comparison is the one of [2 * distinct] with [pieces]. *)
Definition is_spider_trap (url : string) : bool :=
  let parts := str_split "/" url in
  bool_decide (2 * size (list_to_set parts : gset string) < length parts).

(** ** The sequential embedding *)

(** What [extract_content] returns, without the page text, which no caller
    reads. *)
Record Content := mkContent {
  content_meta_description : string;
  content_meta_keywords : string;
  content_images : list string
}.

(** [tag['content'] if tag else ''], or the [KeyError] as [None]. *)
Definition attr_or_empty (a : Attr) : option string :=
  match a with
  | NoTag => Some ""
  | NoAttr => None
  | Value v => Some v
  end.

Definition extract_content (soup : Page) : option Content :=
  match attr_or_empty (meta_description soup) with
  | None => None
  | Some d =>
      match attr_or_empty (meta_keywords soup) with
      | None => None
      | Some k => Some (mkContent d k (images soup))
      end
  end.

(** [link.get('rel') == ['nofollow']] *)
Definition rel_is_nofollow (link : Anchor) : bool :=
  bool_decide (rel link = Some ["nofollow"]).

(** ** Runs with fuel *)

(** The run returns [x]: it does for some amount of fuel, and for no
    amount does it return anything else. *)
Definition returns {A} (run : nat → option A) (x : A) : Prop :=
  (∀ fuel, run fuel = None ∨ run fuel = Some x)
  ∧ ∃ fuel, run fuel = Some x.

(** ** Output files *)

(** A value handed to [csv.writer] for one cell: a string, or the list of
    image sources, which the writer renders with [str]. *)
Inductive Cell :=
| Text (s : string)
| Items (l : list string).

(** What [save_to_file] leaves in a file: the rows given to the CSV writer
    (header first), or the data given to [json.dump]. *)
Inductive Written :=
| Csv (rows : list (list Cell))
| Json (data : list Row).

(** [writer.writerow(["URL", "Title", ...])] *)
Definition csv_header : list Cell :=
  [Text "URL"; Text "Title"; Text "Meta Description"; Text "Meta Keywords";
   Text "Images"].

(** The cells of one tuple of [data] under [writer.writerows(data)]. *)
Definition csv_row (r : Row) : list Cell :=
  [Text r.1.1.1; Text r.1.1.2; Text r.1.2; Items r.2].

(** [save_to_file] on a file system that maps names to what was written:
    [open(..., mode='w')] creates the file or replaces its content; a
    format other than ['csv'] and ['json'] falls through both branches. *)
Definition save_to_file (data : list Row) (file_format file_name : string)
    (files : gmap string Written) : gmap string Written :=
  if bool_decide (file_format = "csv")
  then <[String.append file_name ".csv" := Csv (csv_header :: map csv_row data)]>
         files
  else if bool_decide (file_format = "json")
  then <[String.append file_name ".json" := Json data]> files
  else files.

Module Crawler.
Section Collaborators.

(** The state of the random number generator, which [random.choice]
    advances. *)
Context {Rng : Type}.

(** [urllib.parse.urljoin] and [urlparse(url).netloc] where they return.
    The strings on which they raise [ValueError] are told by
    [urljoin_raises] and [urlparse_raises] further down, where
    [anchor_loop] and the definitions named [_checked] are the functions
    with these exceptions. *)
Variable urljoin : string → string → string.
Variable netloc : string → string.

(** The browser: [driver_get n url] is the page source the driver shows
    after the call [driver.get(url)] that follows [n] earlier calls, or
    [None] when the call raises. *)
Variable driver_get : nat → string → option Page.

(** [random.choice(seq)] on a non-empty sequence. *)
Variable random_choice : Rng → list string → string * Rng.

(** The module-level set [visited_urls], the list [save_results] that
    [web_crawler] creates and every call shares, the calls of
    [driver.get] so far, each with the [depth] argument of the
    [fetch_url] call issuing it (oldest first), and the generator. *)
Record State := mkState {
  visited_urls : gset string;
  save_results : list Row;
  driver_log : list (string * nat);
  rng : Rng
}.

Definition extract_domain (url : string) : string := netloc url.

Definition is_same_domain (start_url link_url : string) : bool :=
  bool_decide (extract_domain start_url = extract_domain link_url).

(** [proxy = random.choice(proxies) if proxies else None]: the value
    and the generator after it. *)
Definition choose_proxy (proxies : option (list string)) (g : Rng)
  : option string * Rng :=
  match proxies with
  | Some (p :: ps) =>
      let '(proxy, g') := random_choice g (p :: ps) in (Some proxy, g')
  | _ => (None, g)
  end.

(** The loop over [soup.find_all('a', href=True)] that fills [links]. *)
Fixpoint page_links (url : string) (domain_restriction : bool)
    (visited : gset string) (found : list Anchor) : list string :=
  match found with
  | [] => []
  | link :: rest =>
      let full_url := urljoin url (href link) in
      let links := page_links url domain_restriction visited rest in
      if rel_is_nofollow link then links
      else if domain_restriction && negb (is_same_domain url full_url)
      then links
      else if startswith full_url "http"
              && bool_decide (full_url ∉ visited)
      then full_url :: links
      else links
  end.

(** The URL under which the page is recorded: the canonical one when the
    page names one that is not visited yet.  [None] is the [KeyError] of
    a canonical link without [href]. *)
Definition canonical_url (url : string) (visited : gset string)
    (soup : Page) : option string :=
  match canonical soup with
  | NoTag => Some url
  | NoAttr => None
  | Value h => if bool_decide (h ∉ visited) then Some h else Some url
  end.

(** The body of [fetch_url] from the proxy choice to the end of the loop
    over the anchors, for a call with argument [depth]: the state it
    leaves and the list [links], or no list when an exception was raised
    on the way (the handler only logs, so the call ends there). *)
Definition process_page (proxies : option (list string))
    (domain_restriction : bool) (depth : nat) (url : string) (st : State)
    : State * option (list string) :=
  let '(proxy, g) := choose_proxy proxies (rng st) in
  let got := driver_get (length (driver_log st)) url in
  let st := mkState (visited_urls st) (save_results st)
              (driver_log st ++ [(url, depth)]) g in
  match got with
  | None => (st, None)
  | Some soup =>
      match canonical_url url (visited_urls st) soup with
      | None => (st, None)
      | Some url =>
          let st := mkState ({[url]} ∪ visited_urls st)
                      (save_results st) (driver_log st) (rng st) in
          match extract_content soup with
          | None => (st, None)
          | Some content =>
              let st :=
                mkState (visited_urls st)
                  (save_results st ++
                     [(url, content_meta_description content,
                       content_meta_keywords content,
                       content_images content)])
                  (driver_log st) (rng st) in
              (st, Some (page_links url domain_restriction
                           (visited_urls st) (anchors soup)))
          end
      end
  end.

(** Lines 94 to 126 on their own: what a call for [url] does with the
    page source [soup] it has read, whichever page that is.
    [process_page] is the proxy choice and [driver.get], followed by this
    on the page of [url] ([process_page_reads_its_page]). *)
Definition parse_page (domain_restriction : bool) (url : string)
    (st : State) (soup : Page) : State * option (list string) :=
  match canonical_url url (visited_urls st) soup with
  | None => (st, None)
  | Some url =>
      let st := mkState ({[url]} ∪ visited_urls st)
                  (save_results st) (driver_log st) (rng st) in
      match extract_content soup with
      | None => (st, None)
      | Some content =>
          let st :=
            mkState (visited_urls st)
              (save_results st ++
                 [(url, content_meta_description content,
                   content_meta_keywords content,
                   content_images content)])
              (driver_log st) (rng st) in
          (st, Some (page_links url domain_restriction
                       (visited_urls st) (anchors soup)))
      end
  end.

(** The test that opens [fetch_url], without [depth == 0]. *)
Definition skip_url (url : string) (st : State) : bool :=
  bool_decide (url ∈ visited_urls st) || is_spider_trap url.

(** [fetch_url], with the tasks of its pool run one after the other in
    the order of [links].  [bfs_crawl], its only caller, passes a
    positive [depth], so [depth] is a natural number here.
    [rate_limit] only sleeps and is left out. *)
Fixpoint fetch_url (proxies : option (list string))
    (domain_restriction : bool) (depth : nat) (url : string) (st : State)
    {struct depth} : State :=
  match depth with
  | 0 => st
  | S depth' =>
      if skip_url url st then st
      else
        match process_page proxies domain_restriction depth url st with
        | (st, None) => st
        | (st, Some links) =>
            fold_left
              (λ st u, fetch_url proxies domain_restriction depth' u st)
              links st
        end
  end.

(** The entries that [bfs_crawl] appends after a fetch. *)
Definition links_to_crawl (start_urls : list string) (st : State)
    (current_depth : Z) : list (string * Z) :=
  map (λ link, (link, (current_depth + 1)%Z))
    (List.filter (is_same_domain (default "" (head start_urls)))
       (elements (visited_urls st))).

(** The [while queue] loop of [bfs_crawl]; [None] when [fuel] iterations
    do not empty the queue. *)
Fixpoint bfs_loop (start_urls : list string) (depth : Z)
    (domain_restriction : bool) (proxies : option (list string))
    (fuel : nat) (queue : list (string * Z)) (st : State)
    : option State :=
  match queue with
  | [] => Some st
  | (url, current_depth) :: queue =>
      match fuel with
      | 0 => None
      | S fuel =>
          if bool_decide (current_depth >= depth)%Z
             || bool_decide (url ∈ visited_urls st)
          then bfs_loop start_urls depth domain_restriction proxies
                 fuel queue st
          else
            let st := fetch_url proxies domain_restriction
                        (Z.to_nat (depth - current_depth)) url st in
            bfs_loop start_urls depth domain_restriction proxies fuel
              (queue ++ links_to_crawl start_urls st current_depth) st
      end
  end.

Definition bfs_crawl (fuel : nat) (start_urls : list string) (depth : Z)
    (domain_restriction : bool) (proxies : option (list string))
    (st : State) : option State :=
  bfs_loop start_urls depth domain_restriction proxies fuel
    (map (λ url, (url, 0%Z)) start_urls) st.

(** [web_crawler]: a new [save_results], the crawl, and the rows handed
    to [save_to_file]. *)
Definition web_crawler (fuel : nat) (urls : list string) (depth : Z)
    (domain_restriction : bool) (proxies : option (list string))
    (st : State) : option State :=
  bfs_crawl fuel urls depth domain_restriction proxies
    (mkState (visited_urls st) [] (driver_log st) (rng st)).

(** [web_crawler] with its call of [save_to_file], which writes
    [crawled_data.csv] or [crawled_data.json]. *)
Definition web_crawler_files (fuel : nat) (urls : list string) (depth : Z)
    (domain_restriction : bool) (proxies : option (list string))
    (file_format : string) (st : State) (files : gmap string Written)
    : option (State * gmap string Written) :=
  match web_crawler fuel urls depth domain_restriction proxies st with
  | None => None
  | Some st =>
      Some (st, save_to_file (save_results st) file_format "crawled_data"
                  files)
  end.

(** The parsed command line: [--depth] defaults to 2, [--proxies] to
    [None] when the flag is absent and to a possibly empty list otherwise,
    [--file-format] is one of the two choices. *)
Record Args := mkArgs {
  args_urls : list string;
  args_depth : Z;
  args_domain_restriction : bool;
  args_proxies : option (list string);
  args_file_format : string
}.

(** [main] after [parser.parse_args()]. *)
Definition main (fuel : nat) (args : Args) (st : State)
    (files : gmap string Written) : option (State * gmap string Written) :=
  let proxies :=
    match args_proxies args with
    | Some (p :: ps) => Some (p :: ps)
    | _ => None
    end in
  web_crawler_files fuel (args_urls args) (args_depth args)
    (args_domain_restriction args) proxies (args_file_format args) st files.

(** ** The thread pools, step by step

    Every call of [fetch_url] runs in a thread of its own: the outermost
    one in the main thread, the others in the workers of the pool of the
    call whose page linked to them.  A step of a call is a stretch of its
    code with no other thread in between: the opening test; the body from
    the proxy choice to the end of the loop over the anchors, with
    [driver.get] and the read of [driver.page_source]; a worker taking
    the next link; the end of the [with] block.  The interpreter can
    switch threads in more places than these, so the runs below are some
    of the runs of the program. *)

(** Where a call of [fetch_url] stands: [Call url depth] is before its
    opening test; [Get url below] is past the test of a call with
    [depth = below + 1] and before [driver.get]; [Pool tasks below
    workers] is inside the [with] block, with the links no worker has
    taken yet, the depth [below = depth - 1] their calls receive and the
    calls the workers of this pool are running; [Done] has returned. *)
Inductive Frame :=
| Call (url : string) (depth : nat)
| Get (url : string) (below : nat)
| Pool (tasks : list string) (below : nat) (workers : list Frame)
| Done.

(** What the scheduler lets happen next in a call: the call itself moves
    on, a worker of its pool takes the next link, or the call that
    worker [i] runs performs an action of its own. *)
Inductive Action :=
| Run
| Take
| In (i : nat) (a : Action).

(** One step of a call.  A call moves from its test to [driver.get], and
    from there through [process_page] into its pool; the pool hands its
    links out in order to at most [max_workers] workers, a worker whose
    call has returned is free again, and the [with] block is left when
    no link and no running call remain. *)
Fixpoint step (max_workers : nat) (proxies : option (list string))
    (domain_restriction : bool) (a : Action) (f : Frame) (st : State)
    : option (Frame * State) :=
  match a, f with
  | Run, Call url depth =>
      match depth with
      | 0 => Some (Done, st)
      | S below => if skip_url url st then Some (Done, st)
                   else Some (Get url below, st)
      end
  | Run, Get url below =>
      match process_page proxies domain_restriction (S below) url st with
      | (st, None) => Some (Done, st)
      | (st, Some links) => Some (Pool links below [], st)
      end
  | Run, Pool [] _ [] => Some (Done, st)
  | Take, Pool (u :: tasks) below workers =>
      if bool_decide (length workers < max_workers)
      then Some (Pool tasks below (workers ++ [Call u below]), st)
      else None
  | In i a, Pool tasks below workers =>
      match workers !! i with
      | None => None
      | Some w =>
          match step max_workers proxies domain_restriction a w st with
          | None => None
          | Some (Done, st) => Some (Pool tasks below (delete i workers), st)
          | Some (w, st) => Some (Pool tasks below (<[i:=w]> workers), st)
          end
      end
  | _, _ => None
  end.

(** The sum of [g] over a list. *)
Definition total {A} (g : A → nat) (l : list A) : nat :=
  foldr (λ x n, g x + n) 0 l.

(** The worker threads that are running a call, over all the pools that
    are open. *)
Fixpoint busy_workers (f : Frame) : nat :=
  match f with
  | Pool _ _ workers => total (λ w, S (busy_workers w)) workers
  | _ => 0
  end.

(** The pools that are open. *)
Fixpoint open_pools (f : Frame) : nat :=
  match f with
  | Pool _ _ workers => S (total open_pools workers)
  | _ => 0
  end.

(** The most workers any one open pool has. *)
Fixpoint widest_pool (f : Frame) : nat :=
  match f with
  | Pool _ _ workers =>
      length workers `max` foldr (λ w n, widest_pool w `max` n) 0 workers
  | _ => 0
  end.

(** A schedule for one call of [fetch_url]. *)
Fixpoint run_frame (max_workers : nat) (proxies : option (list string))
    (domain_restriction : bool) (schedule : list Action) (f : Frame)
    (st : State) : option (Frame * State) :=
  match schedule with
  | [] => Some (f, st)
  | a :: schedule =>
      match step max_workers proxies domain_restriction a f st with
      | None => None
      | Some (f, st) =>
          run_frame max_workers proxies domain_restriction schedule f st
      end
  end.

(** [bfs_crawl] on the main thread: its queue, the call of [fetch_url]
    it is waiting for (with the [current_depth] of the entry), and the
    shared state. *)
Record Machine := mkMachine {
  queue : list (string * Z);
  running : option (Z * Frame);
  store : State
}.

Inductive MAction :=
| Next
| Inner (a : Action).

(** One step of the crawl: the loop pops an entry and skips it or calls
    [fetch_url]; the call takes a step; the call has returned and the loop
    appends [links_to_crawl]. *)
Definition mstep (max_workers : nat) (start_urls : list string)
    (depth : Z) (domain_restriction : bool)
    (proxies : option (list string)) (a : MAction) (m : Machine)
    : option Machine :=
  match a, running m with
  | Next, None =>
      match queue m with
      | [] => None
      | (url, current_depth) :: queue =>
          if bool_decide (current_depth >= depth)%Z
             || bool_decide (url ∈ visited_urls (store m))
          then Some (mkMachine queue None (store m))
          else Some (mkMachine queue
                       (Some (current_depth,
                              Call url (Z.to_nat (depth - current_depth))))
                       (store m))
      end
  | Next, Some (current_depth, Done) =>
      Some (mkMachine
              (queue m ++ links_to_crawl start_urls (store m) current_depth)
              None (store m))
  | Inner a, Some (current_depth, f) =>
      match step max_workers proxies domain_restriction a f (store m) with
      | None => None
      | Some (f, st) => Some (mkMachine (queue m) (Some (current_depth, f)) st)
      end
  | _, _ => None
  end.

(** A schedule is the list of actions the scheduler picks; it runs as
    long as each action is enabled. *)
Fixpoint run_machine (max_workers : nat) (start_urls : list string)
    (depth : Z) (domain_restriction : bool)
    (proxies : option (list string)) (schedule : list MAction)
    (m : Machine) : option Machine :=
  match schedule with
  | [] => Some m
  | a :: schedule =>
      match mstep max_workers start_urls depth domain_restriction
              proxies a m with
      | None => None
      | Some m => run_machine max_workers start_urls depth
                    domain_restriction proxies schedule m
      end
  end.

(** [web_crawler] about to call [bfs_crawl]. *)
Definition crawl_start (urls : list string) (st : State) : Machine :=
  mkMachine (map (λ url, (url, 0%Z)) urls) None
    (mkState (visited_urls st) [] (driver_log st) (rng st)).

(** The loop of [bfs_crawl] has ended. *)
Definition finished (m : Machine) : Prop :=
  queue m = [] ∧ running m = None.

(** ** [ValueError] from the URL functions

    [urljoin] and [urlparse] raise [ValueError] on some strings, an
    unbalanced bracket in the host for one.  [urljoin_raises base href]
    and [urlparse_raises url] tell on which; [urljoin] and [netloc] give
    the results on the others. *)
Variable urljoin_raises : string → string → bool.
Variable urlparse_raises : string → bool.

(** The loop of lines 112 to 126 with these exceptions: [urljoin] is
    called for every anchor (line 114), and [is_same_domain] parses the
    page's URL and the resolved one (line 121) for an anchor that is not
    skipped as [nofollow], when domain restriction is on.  [None] is an
    iteration that raises: the loop ends there and the handler of line 136
    ends the call, so no link of the page is followed. *)
Fixpoint anchor_loop (url : string) (domain_restriction : bool)
    (visited : gset string) (found : list Anchor) : option (list string) :=
  match found with
  | [] => Some []
  | link :: rest =>
      if urljoin_raises url (href link) then None
      else
        let full_url := urljoin url (href link) in
        if rel_is_nofollow link
        then anchor_loop url domain_restriction visited rest
        else if domain_restriction
                && (urlparse_raises url || urlparse_raises full_url)
        then None
        else if domain_restriction && negb (is_same_domain url full_url)
        then anchor_loop url domain_restriction visited rest
        else if startswith full_url "http"
                && bool_decide (full_url ∉ visited)
        then cons full_url <$> anchor_loop url domain_restriction visited rest
        else anchor_loop url domain_restriction visited rest
  end.

(** [process_page] with that loop: the page is marked visited and its row
    appended (lines 101 and 108) before the loop can raise. *)
Definition process_page_checked (proxies : option (list string))
    (domain_restriction : bool) (depth : nat) (url : string) (st : State)
    : State * option (list string) :=
  let '(proxy, g) := choose_proxy proxies (rng st) in
  let got := driver_get (length (driver_log st)) url in
  let st := mkState (visited_urls st) (save_results st)
              (driver_log st ++ [(url, depth)]) g in
  match got with
  | None => (st, None)
  | Some soup =>
      match canonical_url url (visited_urls st) soup with
      | None => (st, None)
      | Some url =>
          let st := mkState ({[url]} ∪ visited_urls st)
                      (save_results st) (driver_log st) (rng st) in
          match extract_content soup with
          | None => (st, None)
          | Some content =>
              let st :=
                mkState (visited_urls st)
                  (save_results st ++
                     [(url, content_meta_description content,
                       content_meta_keywords content,
                       content_images content)])
                  (driver_log st) (rng st) in
              (st, anchor_loop url domain_restriction (visited_urls st)
                     (anchors soup))
          end
      end
  end.

(** [fetch_url] with these exceptions, the tasks of a pool run in the
    order of [links]. *)
Fixpoint fetch_url_checked (proxies : option (list string))
    (domain_restriction : bool) (depth : nat) (url : string) (st : State)
    {struct depth} : State :=
  match depth with
  | 0 => st
  | S depth' =>
      if skip_url url st then st
      else
        match process_page_checked proxies domain_restriction depth url st
        with
        | (st, None) => st
        | (st, Some links) =>
            fold_left
              (λ st u,
                 fetch_url_checked proxies domain_restriction depth' u st)
              links st
        end
  end.

(** How [bfs_crawl] ends: it returns, or [ValueError] leaves it. *)
Inductive Outcome :=
| Returned (st : State)
| Raised (st : State).

(** The list comprehension of line 149 calls
    [is_same_domain(start_urls[0], url)] for every visited [url], outside
    any [try]: it raises when [urlparse] does on [start_urls[0]] or on a
    visited URL. *)
Definition line_149_raises (start_urls : list string) (st : State) : bool :=
  existsb (λ url, urlparse_raises (default "" (head start_urls))
                  || urlparse_raises url)
    (elements (visited_urls st)).

(** The loop of [bfs_crawl] with that exception. *)
Fixpoint bfs_loop_checked (start_urls : list string) (depth : Z)
    (domain_restriction : bool) (proxies : option (list string))
    (fuel : nat) (queue : list (string * Z)) (st : State)
    : option Outcome :=
  match queue with
  | [] => Some (Returned st)
  | (url, current_depth) :: queue =>
      match fuel with
      | 0 => None
      | S fuel =>
          if bool_decide (current_depth >= depth)%Z
             || bool_decide (url ∈ visited_urls st)
          then bfs_loop_checked start_urls depth domain_restriction proxies
                 fuel queue st
          else
            let st := fetch_url_checked proxies domain_restriction
                        (Z.to_nat (depth - current_depth)) url st in
            if line_149_raises start_urls st then Some (Raised st)
            else
              bfs_loop_checked start_urls depth domain_restriction proxies
                fuel (queue ++ links_to_crawl start_urls st current_depth) st
      end
  end.

Definition bfs_crawl_checked (fuel : nat) (start_urls : list string)
    (depth : Z) (domain_restriction : bool) (proxies : option (list string))
    (st : State) : option Outcome :=
  bfs_loop_checked start_urls depth domain_restriction proxies fuel
    (map (λ url, (url, 0%Z)) start_urls) st.

(** [web_crawler] and [main] with that exception: it leaves
    [web_crawler] before [save_to_file] is called, and [main] with it.
    The map [files] follows the files [save_to_file] writes; the log file
    [crawler.log], to which [logging] appends, is not part of it. *)
Definition web_crawler_checked (fuel : nat) (urls : list string) (depth : Z)
    (domain_restriction : bool) (proxies : option (list string))
    (file_format : string) (st : State) (files : gmap string Written)
    : option (Outcome * gmap string Written) :=
  match bfs_crawl_checked fuel urls depth domain_restriction proxies
          (mkState (visited_urls st) [] (driver_log st) (rng st)) with
  | None => None
  | Some (Returned st) =>
      Some (Returned st,
            save_to_file (save_results st) file_format "crawled_data" files)
  | Some (Raised st) => Some (Raised st, files)
  end.

Definition main_checked (fuel : nat) (args : Args) (st : State)
    (files : gmap string Written)
    : option (Outcome * gmap string Written) :=
  let proxies :=
    match args_proxies args with
    | Some (p :: ps) => Some (p :: ps)
    | _ => None
    end in
  web_crawler_checked fuel (args_urls args) (args_depth args)
    (args_domain_restriction args) proxies (args_file_format args) st files.

(** ** One browser for all the threads

    [driver] is one module-level object (line 38), and every call of
    [fetch_url], in whichever thread, uses it.  [driver.get(url)] (line 92)
    makes the browser show the page of [url]; [driver.page_source]
    (line 93) reads the page the browser shows when it is evaluated.
    Another thread can call [driver.get] between the two.  The steps below
    are those of [step] with this one more place to switch threads. *)

(** The shared state and the page the browser shows, if it has loaded
    one. *)
Record Shared := mkShared {
  shared : State;
  shown : option Page
}.

(** Where a call of [fetch_url] stands, as in [Frame]; [TRead url below]
    is between lines 92 and 93: [driver.get(url)] has returned and
    [driver.page_source] is not read yet. *)
Inductive Thread :=
| TCall (url : string) (depth : nat)
| TGet (url : string) (below : nat)
| TRead (url : string) (below : nat)
| TPool (tasks : list string) (below : nat) (workers : list Thread)
| TDone.

(** One step of a call.  [driver.get] raising leaves the browser on the
    page it showed. *)
Fixpoint thread_step (max_workers : nat) (proxies : option (list string))
    (domain_restriction : bool) (a : Action) (t : Thread) (s : Shared)
    : option (Thread * Shared) :=
  match a, t with
  | Run, TCall url depth =>
      match depth with
      | 0 => Some (TDone, s)
      | S below => if skip_url url (shared s) then Some (TDone, s)
                   else Some (TGet url below, s)
      end
  | Run, TGet url below =>
      let st := shared s in
      let '(proxy, g) := choose_proxy proxies (rng st) in
      let got := driver_get (length (driver_log st)) url in
      let st := mkState (visited_urls st) (save_results st)
                  (driver_log st ++ [(url, S below)]) g in
      match got with
      | None => Some (TDone, mkShared st (shown s))
      | Some soup => Some (TRead url below, mkShared st (Some soup))
      end
  | Run, TRead url below =>
      match shown s with
      | None => None
      | Some soup =>
          match parse_page domain_restriction url (shared s) soup with
          | (st, None) => Some (TDone, mkShared st (shown s))
          | (st, Some links) =>
              Some (TPool links below [], mkShared st (shown s))
          end
      end
  | Run, TPool [] _ [] => Some (TDone, s)
  | Take, TPool (u :: tasks) below workers =>
      if bool_decide (length workers < max_workers)
      then Some (TPool tasks below (workers ++ [TCall u below]), s)
      else None
  | In i a, TPool tasks below workers =>
      match workers !! i with
      | None => None
      | Some w =>
          match thread_step max_workers proxies domain_restriction a w s with
          | None => None
          | Some (TDone, s) => Some (TPool tasks below (delete i workers), s)
          | Some (w, s) => Some (TPool tasks below (<[i:=w]> workers), s)
          end
      end
  | _, _ => None
  end.

(** A schedule for one call of [fetch_url] and the calls under it. *)
Fixpoint run_threads (max_workers : nat) (proxies : option (list string))
    (domain_restriction : bool) (schedule : list Action) (t : Thread)
    (s : Shared) : option (Thread * Shared) :=
  match schedule with
  | [] => Some (t, s)
  | a :: schedule =>
      match thread_step max_workers proxies domain_restriction a t s with
      | None => None
      | Some (t, s) =>
          run_threads max_workers proxies domain_restriction schedule t s
      end
  end.

(** A call of the first step function, seen as a thread. *)
Fixpoint thread_of (f : Frame) : Thread :=
  match f with
  | Call url depth => TCall url depth
  | Get url below => TGet url below
  | Pool tasks below workers => TPool tasks below (thread_of <$> workers)
  | Done => TDone
  end.

(** ** Notions the properties are stated with *)

(** What a run shows apart from the generator: the visited set, the rows
    and the calls of [driver.get]. *)
Definition observable (st : State)
  : gset string * list Row * list (string * nat) :=
  (visited_urls st, save_results st, driver_log st).

(** The same for a call in progress and for the crawl. *)
Definition frame_observable (fs : Frame * State) :=
  (fs.1, observable fs.2).

Definition machine_observable (m : Machine) :=
  (queue m, running m, observable (store m)).

(** [st'] comes after [st]: the visited set has grown, and the calls of
    [driver.get] and the rows added since are for URLs that were not
    visited in [st]; the rows' URLs are visited in [st']. *)
Definition extends (st st' : State) : Prop :=
  visited_urls st ⊆ visited_urls st'
  ∧ ∃ gets rows,
      driver_log st' = driver_log st ++ gets
      ∧ save_results st' = save_results st ++ rows
      ∧ Forall (λ g, g.1 ∉ visited_urls st) gets
      ∧ Forall (λ row, (row_url row ∉ visited_urls st)
                       ∧ (row_url row ∈ visited_urls st')) rows.

(** No URL is recorded twice, and every recorded URL is visited. *)
Definition distinct_rows (st : State) : Prop :=
  NoDup (row_url <$> save_results st)
  ∧ Forall (λ row, row_url row ∈ visited_urls st) (save_results st).

(** [v] is a link of the page [soup] fetched at [url]: an anchor of the
    page, resolved against [url] or against the canonical URL the page
    names. *)
Definition links_of (url : string) (soup : Page) (v : string) : Prop :=
  ∃ base link,
    (base = url ∨ canonical soup = Value base)
    ∧ link ∈ anchors soup
    ∧ urljoin base (href link) = v.

(** The link graph: some answer of the browser for [u] has a link to
    [v]. *)
Definition linked (u v : string) : Prop :=
  ∃ n soup, driver_get n u = Some soup ∧ links_of u soup v.

(** [distance seeds k v]: [v] is reached from a seed along [k] links. *)
Inductive distance (seeds : list string) : nat → string → Prop :=
| distance_seed s :
    s ∈ seeds → distance seeds 0 s
| distance_link k u v :
    distance seeds k u → linked u v → distance seeds (S k) v.

(** A call [driver.get(g.1)] issued with depth [g.2] in a crawl with depth
    [d] is for a URL at distance [d - g.2], which is less than [d]. *)
Definition within (seeds : list string) (d : nat) (g : string * nat)
    : Prop :=
  1 ≤ g.2 ∧ g.2 ≤ d ∧ distance seeds (d - g.2) g.1.

(** [x] is the URL under which a page fetched at [u] may be recorded: [u]
    itself or the canonical URL an answer for [u] names. *)
Definition names (u x : string) : Prop :=
  x = u ∨ ∃ n soup, driver_get n u = Some soup ∧ canonical soup = Value x.

(** A row is the page of a URL at a distance less than [d]. *)
Definition recorded_within (seeds : list string) (d : nat) (row : Row)
    : Prop :=
  ∃ u k, k < d ∧ distance seeds k u ∧ names u (row_url row).

(** From [st] to [st'], the calls of [driver.get] and the rows added stay
    within depth [d]. *)
Definition adds_within (seeds : list string) (d : nat) (st st' : State)
    : Prop :=
  ∃ gets rows,
    driver_log st' = driver_log st ++ gets
    ∧ save_results st' = save_results st ++ rows
    ∧ Forall (within seeds d) gets
    ∧ Forall (recorded_within seeds d) rows.

(** The calls in progress of a crawl with depth [d] and pools of [W]
    workers, by the [depth] they were called with: a call with depth [r]
    is for a URL at distance [d - r], its pool holds at most [W] calls
    with depth [r - 1], none of which has returned. *)
Inductive at_level (W : nat) (seeds : list string) (d : nat)
  : nat → Frame → Prop :=
| level_call r u :
    r ≤ d → distance seeds (d - r) u →
    at_level W seeds d r (Call u r)
| level_get r u :
    S r ≤ d → distance seeds (d - S r) u →
    at_level W seeds d (S r) (Get u r)
| level_pool r tasks workers :
    S r ≤ d →
    Forall (distance seeds (d - r)) tasks →
    length workers ≤ W →
    Forall (λ w, w ≠ Done ∧ at_level W seeds d r w) workers →
    at_level W seeds d (S r) (Pool tasks r workers)
| level_done r :
    at_level W seeds d r Done.

(** The calls of [fetch_url] that are in progress or wait in a pool, each
    with its [depth] argument. *)
Fixpoint calls_of (f : Frame) : list (string * nat) :=
  match f with
  | Call url depth => [(url, depth)]
  | Get url below => [(url, S below)]
  | Pool tasks below workers =>
      map (λ url, (url, below)) tasks ++ concat (map calls_of workers)
  | Done => []
  end.

(** What holds of the crawl of [seeds] with depth [depth] from the state
    [st0] at every step: a queue entry is a seed at depth 0 or a visited
    URL; the call in progress was made for a seed with the full depth; the
    state has grown within the depth. *)
Definition crawl_invariant (W : nat) (seeds : list string) (depth : Z)
    (st0 : State) (m : Machine) : Prop :=
  Forall (λ entry, (entry.2 = 0%Z ∧ entry.1 ∈ seeds)
                   ∨ entry.1 ∈ visited_urls (store m)) (queue m)
  ∧ (∀ current_depth f,
       running m = Some (current_depth, f) →
       current_depth = 0%Z
       ∧ at_level W seeds (Z.to_nat depth) (Z.to_nat depth) f)
  ∧ adds_within seeds (Z.to_nat depth) st0 (store m).

(** The link graph of the pages themselves: some answer of the browser
    for [u] has an anchor that, resolved against [u], is [v]. *)
Definition page_link (u v : string) : Prop :=
  ∃ n soup link,
    driver_get n u = Some soup
    ∧ link ∈ anchors soup
    ∧ urljoin u (href link) = v.

(** [hops seeds k v]: [k] such links lead from a seed to [v]. *)
Inductive hops (seeds : list string) : nat → string → Prop :=
| hops_seed s :
    s ∈ seeds → hops seeds 0 s
| hops_link k u v :
    hops seeds k u → page_link u v → hops seeds (S k) v.

(** The anchor makes its iteration of the loop raise. *)
Definition link_raises (url : string) (domain_restriction : bool)
    (link : Anchor) : Prop :=
  urljoin_raises url (href link) = true
  ∨ (rel link ≠ Some ["nofollow"]
     ∧ domain_restriction = true
     ∧ (urlparse_raises url = true
        ∨ urlparse_raises (urljoin url (href link)) = true)).

(** The anchor is one whose target the loop appends to [links]. *)
Definition followed (url : string) (domain_restriction : bool)
    (visited : gset string) (link : Anchor) : Prop :=
  rel link ≠ Some ["nofollow"]
  ∧ (domain_restriction = true → netloc url = netloc (urljoin url (href link)))
  ∧ startswith (urljoin url (href link)) "http" = true
  ∧ urljoin url (href link) ∉ visited.

#[global] Instance link_raises_dec url domain_restriction link :
  Decision (link_raises url domain_restriction link).
Proof. unfold link_raises. apply _. Defined.

#[global] Instance followed_dec url domain_restriction visited link :
  Decision (followed url domain_restriction visited link).
Proof. unfold followed. apply _. Defined.

(** What [bfs_crawl] does for one seed: nothing when the depth is not
    positive or the seed is visited, and else one call of [fetch_url]. *)
Definition crawl_seed (depth : Z) (domain_restriction : bool)
    (proxies : option (list string)) (st : State) (url : string) : State :=
  if bool_decide (0 >= depth)%Z || bool_decide (url ∈ visited_urls st)
  then st
  else fetch_url proxies domain_restriction (Z.to_nat depth) url st.

(** [crawl_seed] with the exceptions inside [fetch_url]. *)
Definition crawl_seed_checked (depth : Z) (domain_restriction : bool)
    (proxies : option (list string)) (st : State) (url : string) : State :=
  if bool_decide (0 >= depth)%Z || bool_decide (url ∈ visited_urls st)
  then st
  else fetch_url_checked proxies domain_restriction (Z.to_nat depth) url st.

(** One pass over the seeds that stops at the first seed after whose
    [fetch_url] call line 149 raises. *)
Fixpoint seed_pass (start_urls : list string) (depth : Z)
    (domain_restriction : bool) (proxies : option (list string))
    (seeds : list string) (st : State) : Outcome :=
  match seeds with
  | [] => Returned st
  | url :: seeds =>
      if bool_decide (0 >= depth)%Z || bool_decide (url ∈ visited_urls st)
      then seed_pass start_urls depth domain_restriction proxies seeds st
      else
        let st := fetch_url_checked proxies domain_restriction
                    (Z.to_nat depth) url st in
        if line_149_raises start_urls st then Raised st
        else seed_pass start_urls depth domain_restriction proxies seeds st
  end.

(** The most calls of [driver.get] under a call of [fetch_url] with depth
    [depth] when no page has more than [B] anchors:
    [1 + B + ... + B^(depth-1)]. *)
Fixpoint fetch_bound (B : nat) (depth : nat) : nat :=
  match depth with
  | 0 => 0
  | S below => S (B * fetch_bound B below)
  end.

(** The most workers that can be busy under a call with depth [depth]:
    [W + W^2 + ... + W^depth]. *)
Fixpoint worker_bound (W : nat) (depth : nat) : nat :=
  match depth with
  | 0 => 0
  | S below => W * S (worker_bound W below)
  end.

(** A bound on the steps a call with depth [depth] can take when no page
    has more than [B] anchors. *)
Fixpoint call_weight (B : nat) (depth : nat) : nat :=
  match depth with
  | 0 => 1
  | S below => S (S (S (B * S (S (call_weight B below)))))
  end.

Fixpoint weight (B : nat) (f : Frame) : nat :=
  match f with
  | Call _ depth => call_weight B depth
  | Get _ below => S (S (B * S (S (call_weight B below))))
  | Pool tasks below workers =>
      S (length tasks * S (S (call_weight B below))
         + total (λ w, S (weight B w)) workers)
  | Done => 0
  end.

Definition running_weight (B : nat) (r : option (Z * Frame)) : nat :=
  match r with
  | None => 0
  | Some (_, f) => S (weight B f)
  end.

(** A queue entry that the loop of [bfs_crawl] would not skip. *)
Definition live (depth : Z) (st : State) (entry : string * Z) : bool :=
  negb (bool_decide (entry.2 >= depth)%Z
        || bool_decide (entry.1 ∈ visited_urls st)).

Definition live_entries (depth : Z) (st : State)
    (queue : list (string * Z)) : nat :=
  length (List.filter (live depth st) queue).

(** One step of the crawl, as a relation between machines. *)
Definition steps_to (max_workers : nat) (start_urls : list string)
    (depth : Z) (domain_restriction : bool)
    (proxies : option (list string)) (m m' : Machine) : Prop :=
  ∃ a, mstep max_workers start_urls depth domain_restriction proxies a m
       = Some m'.

End Collaborators.

Arguments State : clear implicits.
Arguments Machine : clear implicits.
Arguments Shared : clear implicits.
Arguments Outcome : clear implicits.

End Crawler.

Import Crawler.

(** [ThreadPoolExecutor(max_workers=10)] *)
Definition max_workers : nat := 10.

(** ** Concrete collaborators for the examples *)

Module Examples.

(** [urljoin(base, href)] for an [href] that is an absolute URL. *)
Definition join_absolute (base href : string) : string := href.

(** [urlparse(url).netloc] for a URL of the form [scheme://host/path]. *)
Definition netloc_of (url : string) : string :=
  match str_split "/" url with
  | _ :: "" :: host :: _ => host
  | _ => ""
  end.

(** A generator that counts its draws and picks the first element. *)
Definition first_choice (g : nat) (seq : list string) : string * nat :=
  (default "" (head seq), S g).

(** A web that answers every request for a URL with the same page, and
    raises for the URLs it does not have. *)
Definition static (pages : gmap string Page) : nat → string → option Page :=
  λ _ url, pages !! url.

Definition plain (links : list Anchor) : Page :=
  mkPage NoTag NoTag NoTag [] links.

Definition a_href (url : string) : Anchor := mkAnchor url None.

Definition seed : string := "http://a.test/".

Definition empty_state : State nat := mkState ∅ [] [] 0.

(** The state of a process that has visited the seed before. *)
Definition seen_state : State nat := mkState {[seed]} [] [] 0.

(** [web_crawler] and the step-by-step crawl with these collaborators
    and the pool size of the source. *)
Definition crawl (pages : nat → string → option Page) :=
  web_crawler join_absolute netloc_of pages first_choice.

Definition crawl_steps (pages : nat → string → option Page) :=
  run_machine join_absolute netloc_of pages first_choice max_workers.

(** Scenario B of the specification: the seed page links to
    [/loop/loop/loop/]. *)
Definition loop_url : string := "http://a.test/loop/loop/loop/".

Definition loop_web : gmap string Page :=
  list_to_map [(seed, plain [a_href loop_url]); (loop_url, plain [])].

(** A link with [rel="nofollow noopener"]. *)
Definition private_url : string := "http://a.test/private".

Definition nofollow_web : gmap string Page :=
  list_to_map
    [(seed, plain [mkAnchor private_url (Some ["nofollow"; "noopener"])]);
     (private_url, plain [])].

(** The seed page names a canonical URL on another host and links to a
    page of that host. *)
Definition mirror_url : string := "http://b.test/".
Definition mirror_page : string := "http://b.test/y".

Definition canonical_web : gmap string Page :=
  list_to_map
    [(seed, mkPage (Value mirror_url) NoTag NoTag []
              [a_href mirror_page; a_href "http://a.test/x"]);
     (mirror_page, plain []);
     ("http://a.test/x", plain [])].

(** The seed page links to the same URL twice. *)
Definition twin_url : string := "http://a.test/x".

Definition twin_web : gmap string Page :=
  list_to_map [(seed, plain [a_href twin_url; a_href twin_url]);
               (twin_url, plain [])].

(** Both workers of the seed's pool pass the opening test for
    [twin_url] before either of them has loaded the page. *)
Definition race_schedule : list MAction :=
  [Next; Inner Run; Inner Run; Inner Take; Inner Take;
   Inner (In 0 Run); Inner (In 1 Run);
   Inner (In 0 Run); Inner (In 1 Run);
   Inner (In 0 Run); Inner (In 0 Run); Inner Run; Next; Next; Next].

(** A browser whose first two calls time out. *)
Definition flaky (pages : gmap string Page) : nat → string → option Page :=
  λ n url, if bool_decide (n < 2) then None else pages !! url.

Definition single_web : gmap string Page :=
  list_to_map [(seed, plain [])].

(** The seed links to two pages, each of which links to six more. *)
Definition children (url : string) : list Anchor :=
  map (λ k, a_href (String.append url k)) ["1"; "2"; "3"; "4"; "5"; "6"].

Definition fanout_web : gmap string Page :=
  list_to_map
    [(seed, plain [a_href "http://a.test/a/"; a_href "http://a.test/b/"]);
     ("http://a.test/a/", plain (children "http://a.test/a/"));
     ("http://a.test/b/", plain (children "http://a.test/b/"))].

(** The two workers of the seed's pool open their pools, and the twelve
    workers of those pools all reach [driver.get]. *)
Definition fanout_schedule : list MAction :=
  [Next; Inner Run; Inner Run; Inner Take; Inner Take;
   Inner (In 0 Run); Inner (In 0 Run); Inner (In 1 Run); Inner (In 1 Run)]
  ++ replicate 6 (Inner (In 0 Take))
  ++ replicate 6 (Inner (In 1 Take))
  ++ map (λ i, Inner (In 0 (In i Run))) (seq 0 6)
  ++ map (λ i, Inner (In 1 (In i Run))) (seq 0 6).

(** A page whose description [meta] tag has no [content] attribute, and
    one whose canonical [link] tag has no [href]. *)
Definition no_content_page : Page :=
  mkPage NoTag NoAttr NoTag [] [a_href "http://a.test/x"].

Definition no_content_web : gmap string Page :=
  list_to_map [(seed, no_content_page)].

Definition no_href_page : Page :=
  mkPage NoAttr NoTag NoTag [] [a_href "http://a.test/x"].

Definition no_href_web : gmap string Page :=
  list_to_map [(seed, no_href_page)].

(** [python advanced_crawler.py http://a.test/ --file-format json] *)
Definition json_args : Args := mkArgs [seed] 2 false None "json".

(** A chain of pages: the seed links to [/1] and to [/other], [/1] to
    [/2], and so on to [/5]; every page says in its description which one
    it is. *)
Definition described (description : string) (links : list Anchor) : Page :=
  mkPage NoTag (Value description) NoTag [] links.

Definition hop (k : string) : string := String.append "http://a.test/" k.

Definition other_url : string := "http://a.test/other".

Definition chain_web : gmap string Page :=
  list_to_map
    [(seed, described "seed" [a_href (hop "1"); a_href other_url]);
     (hop "1", described "page 1" [a_href (hop "2")]);
     (hop "2", described "page 2" [a_href (hop "3")]);
     (hop "3", described "page 3" [a_href (hop "4")]);
     (hop "4", described "page 4" [a_href (hop "5")]);
     (hop "5", described "page 5" []);
     (other_url, described "other" [])].

(** The links of [chain_web], page by page. *)
Definition chain_links : list (string * string) :=
  [(seed, hop "1"); (seed, other_url); (hop "1", hop "2");
   (hop "2", hop "3"); (hop "3", hop "4"); (hop "4", hop "5")].

(** The pages of [chain_web] with the number of links that lead to each
    from the seed. *)
Definition chain_hops : list (nat * string) :=
  [(0, seed); (1, hop "1"); (1, other_url); (2, hop "2"); (3, hop "3");
   (4, hop "4"); (5, hop "5")].

(** A schedule of the call [fetch_url(seed, 4)].  Worker 0 of the seed's
    pool runs the call for [/1], and the calls under it go down to the one
    for [/3], with depth 1.  Worker 1 runs the call for [/other], with
    depth 3: it calls [driver.get], then the call for [/3] calls
    [driver.get], and only then does the call for [/other] read
    [driver.page_source].  The rest runs the calls to their end. *)
Definition stale_read_schedule : list Action :=
  [Run; Run; Run; Take; Take;
   In 0 Run; In 0 Run; In 0 Run; In 0 Take;
   In 0 (In 0 Run); In 0 (In 0 Run); In 0 (In 0 Run); In 0 (In 0 Take);
   In 0 (In 0 (In 0 Run));
   In 1 Run; In 1 Run;
   In 0 (In 0 (In 0 Run));
   In 1 Run; In 1 Take;
   In 1 (In 0 Run); In 1 (In 0 Run); In 1 (In 0 Run); In 1 (In 0 Take);
   In 1 (In 0 (In 0 Run)); In 1 (In 0 (In 0 Run)); In 1 (In 0 (In 0 Run));
   In 1 (In 0 (In 0 Run)); In 1 (In 0 Run); In 1 Run;
   In 0 (In 0 (In 0 Run)); In 0 (In 0 (In 0 Run)); In 0 (In 0 Run);
   In 0 Run; Run].

(** The same call with every [driver.page_source] read right after its
    [driver.get]. *)
Definition own_page_schedule : list Action :=
  [Run; Run; Run; Take; Take;
   In 0 Run; In 0 Run; In 0 Run; In 0 Take;
   In 0 (In 0 Run); In 0 (In 0 Run); In 0 (In 0 Run); In 0 (In 0 Take);
   In 0 (In 0 (In 0 Run)); In 0 (In 0 (In 0 Run)); In 0 (In 0 (In 0 Run));
   In 0 (In 0 (In 0 Take)); In 0 (In 0 (In 0 (In 0 Run)));
   In 0 (In 0 (In 0 Run)); In 0 (In 0 Run); In 0 Run;
   In 0 Run; In 0 Run; In 0 Run; In 0 Run; Run].

End Examples.

(** * Properties *)

Section Facts.

Context {Rng : Type}.
Variable urljoin : string → string → string.
Variable netloc : string → string.
Variable driver_get : nat → string → option Page.
Variable random_choice : Rng → list string → string * Rng.

Local Abbreviation process_page :=
  (process_page urljoin netloc driver_get random_choice).
Local Abbreviation parse_page := (parse_page urljoin netloc).
Local Abbreviation thread_step :=
  (thread_step urljoin netloc driver_get random_choice).
Local Abbreviation run_threads :=
  (run_threads urljoin netloc driver_get random_choice).
Local Abbreviation fetch_url :=
  (fetch_url urljoin netloc driver_get random_choice).
Local Abbreviation bfs_loop :=
  (bfs_loop urljoin netloc driver_get random_choice).
Local Abbreviation bfs_crawl :=
  (bfs_crawl urljoin netloc driver_get random_choice).
Local Abbreviation web_crawler :=
  (web_crawler urljoin netloc driver_get random_choice).
Local Abbreviation step := (step urljoin netloc driver_get random_choice).
Local Abbreviation mstep := (mstep urljoin netloc driver_get random_choice).
Local Abbreviation run_machine :=
  (run_machine urljoin netloc driver_get random_choice).
Local Abbreviation steps_to :=
  (steps_to urljoin netloc driver_get random_choice).
Local Abbreviation distance := (distance urljoin driver_get).
Local Abbreviation at_level := (at_level urljoin driver_get).
Local Abbreviation within := (within urljoin driver_get).
Local Abbreviation recorded_within := (recorded_within urljoin driver_get).
Local Abbreviation adds_within := (adds_within urljoin driver_get).
Local Abbreviation crawl_invariant := (crawl_invariant urljoin driver_get).
Local Abbreviation run_frame :=
  (run_frame urljoin netloc driver_get random_choice).
Local Abbreviation web_crawler_files :=
  (web_crawler_files urljoin netloc driver_get random_choice).
Local Abbreviation main := (main urljoin netloc driver_get random_choice).
Local Abbreviation crawl_seed :=
  (crawl_seed urljoin netloc driver_get random_choice).
Local Abbreviation State := (State Rng).
Local Abbreviation Machine := (Machine Rng).

Implicit Types (st : State) (m : Machine) (url u v : string)
  (depth below r d : nat) (f w : Frame) (a : Action)
  (proxies : option (list string)) (domain_restriction : bool).

(** ** The nofollow test *)

Lemma rel_is_nofollow_exact (link : Anchor) :
  rel_is_nofollow link = true ↔ rel link = Some ["nofollow"].
Proof. apply bool_decide_eq_true. Qed.

Lemma nofollow_with_more_tokens (link : Anchor) token tokens :
  rel link = Some ("nofollow" :: token :: tokens) →
  rel_is_nofollow link = false.
Proof.
  intros Hrel. apply bool_decide_eq_false. by rewrite Hrel.
Qed.

(** ** The proxies do not reach the browser *)

Lemma choose_proxy_rng proxies (g : Rng) :
  ∃ proxy g', choose_proxy random_choice proxies g = (proxy, g').
Proof. destruct (choose_proxy random_choice proxies g); eauto. Qed.

Lemma process_page_proxies proxies1 proxies2 domain_restriction depth url
    st1 st2 :
  observable st1 = observable st2 →
  observable (process_page proxies1 domain_restriction depth url st1).1
  = observable (process_page proxies2 domain_restriction depth url st2).1
  ∧ (process_page proxies1 domain_restriction depth url st1).2
    = (process_page proxies2 domain_restriction depth url st2).2.
Proof.
  destruct st1 as [vs1 rs1 log1 g1], st2 as [vs2 rs2 log2 g2].
  unfold observable; simpl. intros [= -> -> ->].
  unfold Crawler.process_page; simpl.
  destruct (choose_proxy_rng proxies1 g1) as (p1 & g1' & ->).
  destruct (choose_proxy_rng proxies2 g2) as (p2 & g2' & ->).
  destruct (driver_get (length log2) url) as [soup|]; simpl; [|done].
  destruct (canonical_url url vs2 soup) as [url'|]; simpl; [|done].
  destruct (extract_content soup) as [content|]; simpl; done.
Qed.

Lemma skip_url_observable url st1 st2 :
  observable st1 = observable st2 → skip_url url st1 = skip_url url st2.
Proof. unfold observable, skip_url. by intros [= -> _ _]. Qed.

Lemma fetch_url_proxies proxies1 proxies2 domain_restriction depth :
  ∀ url st1 st2,
    observable st1 = observable st2 →
    observable (fetch_url proxies1 domain_restriction depth url st1)
    = observable (fetch_url proxies2 domain_restriction depth url st2).
Proof.
  induction depth as [|below IH]; intros url st1 st2 Hobs; simpl; [done|].
  rewrite (skip_url_observable url st1 st2 Hobs).
  destruct (skip_url url st2); [done|].
  destruct (process_page_proxies proxies1 proxies2 domain_restriction
              (S below) url st1 st2 Hobs) as [Hst Hlinks].
  destruct (process_page proxies1 _ _ _ st1) as [st1' r1].
  destruct (process_page proxies2 _ _ _ st2) as [st2' r2].
  simpl in Hst, Hlinks. subst r2.
  destruct r1 as [links|]; [|done].
  clear Hobs. revert st1' st2' Hst.
  induction links as [|u links IHl]; intros st1' st2' Hst; simpl; [done|].
  apply IHl, IH, Hst.
Qed.

Lemma bfs_loop_proxies start_urls (depth : Z) domain_restriction
    proxies1 proxies2 fuel :
  ∀ queue st1 st2,
    observable st1 = observable st2 →
    observable <$> bfs_loop start_urls depth domain_restriction proxies1
                     fuel queue st1
    = observable <$> bfs_loop start_urls depth domain_restriction proxies2
                       fuel queue st2.
Proof.
  induction fuel as [|fuel IH]; intros [|[url cd] queue] st1 st2 Hobs;
    simpl; try (by rewrite ?Hobs).
  assert (visited_urls st1 = visited_urls st2) as Hvs
    by (unfold observable in Hobs; congruence).
  rewrite Hvs.
  destruct (_ || _); [by apply IH|].
  pose proof (fetch_url_proxies proxies1 proxies2 domain_restriction
                (Z.to_nat (depth - cd)) url st1 st2 Hobs) as Hobs'.
  assert (links_to_crawl netloc start_urls
            (fetch_url proxies1 domain_restriction
               (Z.to_nat (depth - cd)) url st1) cd
          = links_to_crawl netloc start_urls
              (fetch_url proxies2 domain_restriction
                 (Z.to_nat (depth - cd)) url st2) cd) as ->.
  { unfold links_to_crawl. unfold observable in Hobs'. congruence. }
  by apply IH.
Qed.

Local Ltac same_observable H :=
  unfold frame_observable, machine_observable; simpl; rewrite ?H; done.

Lemma step_proxies W proxies1 proxies2 domain_restriction a :
  ∀ f st1 st2,
    observable st1 = observable st2 →
    frame_observable <$> step W proxies1 domain_restriction a f st1
    = frame_observable <$> step W proxies2 domain_restriction a f st2.
Proof.
  induction a as [| |i a IH]; intros f st1 st2 Hobs;
    destruct f as [u depth|u below|tasks below workers|]; simpl; try done.
  - destruct depth as [|below]; [same_observable Hobs|].
    rewrite (skip_url_observable u st1 st2 Hobs).
    destruct (skip_url u st2); same_observable Hobs.
  - destruct (process_page_proxies proxies1 proxies2 domain_restriction
                (S below) u st1 st2 Hobs) as [Hst Hlinks].
    destruct (process_page proxies1 _ _ _ st1) as [st1' r1].
    destruct (process_page proxies2 _ _ _ st2) as [st2' r2].
    simpl in Hst, Hlinks. subst r2.
    destruct r1; same_observable Hst.
  - destruct tasks, workers; try done. same_observable Hobs.
  - destruct tasks; [done|]. case_bool_decide; [|done].
    same_observable Hobs.
  - destruct (workers !! i) as [w|]; [|done].
    specialize (IH w st1 st2 Hobs).
    destruct (step W proxies1 domain_restriction a w st1) as [[w1 st1']|],
             (step W proxies2 domain_restriction a w st2) as [[w2 st2']|];
      try done.
    assert (w1 = w2 ∧ observable st1' = observable st2') as [-> Hobs']
      by (unfold frame_observable in IH; simpl in IH; split; congruence).
    destruct w2; same_observable Hobs'.
Qed.

Lemma run_machine_proxies W start_urls (depth : Z) domain_restriction
    proxies1 proxies2 (schedule : list MAction) :
  ∀ m1 m2,
    machine_observable m1 = machine_observable m2 →
    machine_observable
      <$> run_machine W start_urls depth domain_restriction proxies1
            schedule m1
    = machine_observable
        <$> run_machine W start_urls depth domain_restriction proxies2
              schedule m2.
Proof.
  induction schedule as [|a schedule IH];
    intros [q1 r1 st1] [q2 r2 st2]; simpl; [congruence|].
  unfold machine_observable at 1 2; simpl. intros Hm.
  assert (q1 = q2 ∧ r1 = r2 ∧ observable st1 = observable st2)
    as (-> & -> & Hobs) by (split_and!; congruence).
  clear Hm.
  assert (visited_urls st1 = visited_urls st2) as Hvs
    by (unfold observable in Hobs; congruence).
  unfold Crawler.mstep; simpl.
  destruct a as [|a], r2 as [[cd f]|]; try done.
  - destruct f; try done. apply IH.
    unfold machine_observable, links_to_crawl; simpl. by rewrite Hobs, Hvs.
  - destruct q2 as [|[u cd] q2]; [done|]. rewrite Hvs.
    destruct (_ || _); apply IH; same_observable Hobs.
  - pose proof (step_proxies W proxies1 proxies2 domain_restriction a f
                  st1 st2 Hobs) as Hstep.
    destruct (step W proxies1 domain_restriction a f st1) as [[f1 st1']|],
             (step W proxies2 domain_restriction a f st2) as [[f2 st2']|];
      try done.
    assert (f1 = f2 ∧ observable st1' = observable st2') as [-> Hobs']
      by (unfold frame_observable in Hstep; simpl in Hstep; split;
          congruence).
    apply IH. same_observable Hobs'.
Qed.

(** C10.  Two runs of [web_crawler] that differ only in the [proxies]
    argument ([None] included) run out of fuel together or end with the
    same visited set, the same rows in [save_results], and the same
    sequence of [driver.get] calls, each with the same URL and depth: the
    proxy that [random.choice] picks only moves the generator.  The same
    holds step by step for two crawls under one schedule, whatever the
    pool size. *)
Theorem proxies_do_not_matter fuel urls (depth : Z) domain_restriction
    proxies1 proxies2 st :
  observable <$> web_crawler fuel urls depth domain_restriction proxies1 st
  = observable <$> web_crawler fuel urls depth domain_restriction proxies2 st
  ∧ ∀ W schedule,
      machine_observable
        <$> run_machine W urls depth domain_restriction proxies1 schedule
              (crawl_start urls st)
      = machine_observable
          <$> run_machine W urls depth domain_restriction proxies2 schedule
                (crawl_start urls st).
Proof.
  split.
  - unfold Crawler.web_crawler, Crawler.bfs_crawl.
    by apply bfs_loop_proxies.
  - intros W schedule. by apply run_machine_proxies.
Qed.

(** ** What one page does to the state *)

Lemma page_links_length base domain_restriction (visited : gset string)
    (found : list Anchor) :
  length (page_links urljoin netloc base domain_restriction visited found)
  ≤ length found.
Proof.
  induction found as [|link found IH]; simpl; [done|].
  repeat case_match; simpl; lia.
Qed.

Lemma page_links_elem base domain_restriction (visited : gset string)
    (found : list Anchor) v :
  v ∈ page_links urljoin netloc base domain_restriction visited found →
  ∃ link,
    link ∈ found
    ∧ urljoin base (href link) = v
    ∧ rel_is_nofollow link = false
    ∧ (domain_restriction = true → netloc base = netloc v)
    ∧ v ∉ visited.
Proof.
  induction found as [|link found IH]; simpl; [by intros ?%elem_of_nil|].
  intros Hv.
  assert (v ∈ page_links urljoin netloc base domain_restriction visited found
          → ∃ link0, link0 ∈ link :: found ∧ urljoin base (href link0) = v
              ∧ rel_is_nofollow link0 = false
              ∧ (domain_restriction = true → netloc base = netloc v)
              ∧ v ∉ visited) as Hrest.
  { intros (link0 & ? & ?)%IH. exists link0. split; [by right|done]. }
  destruct (rel_is_nofollow link) eqn:Hrel; [by apply Hrest|].
  destruct (domain_restriction && _) eqn:Hdom; [by apply Hrest|].
  destruct (startswith _ _ && _) eqn:Hhttp; [|by apply Hrest].
  apply elem_of_cons in Hv as [->|Hv]; [|by apply Hrest].
  exists link. split; [by left|]. do 2 (split; [done|]).
  apply andb_prop in Hhttp as [_ Hnew%bool_decide_eq_true]. split; [|done].
  intros ->. simpl in Hdom.
  apply negb_false_iff, bool_decide_eq_true in Hdom. done.
Qed.

Lemma canonical_url_cases url (visited : gset string) soup url' :
  canonical_url url visited soup = Some url' →
  url' = url ∨ (canonical soup = Value url' ∧ url' ∉ visited).
Proof.
  unfold canonical_url. destruct (canonical soup) as [| |h]; try naive_solver.
  case_bool_decide; naive_solver.
Qed.

Lemma process_page_effects proxies domain_restriction depth url st st'
    (result : option (list string)) :
  process_page proxies domain_restriction depth url st = (st', result) →
  visited_urls st ⊆ visited_urls st'
  ∧ driver_log st' = driver_log st ++ [(url, depth)]
  ∧ (∃ rows,
       save_results st' = save_results st ++ rows
       ∧ ∀ row, row ∈ rows →
           row_url row ∈ visited_urls st'
           ∧ (url ∉ visited_urls st → row_url row ∉ visited_urls st)
           ∧ names driver_get url (row_url row))
  ∧ (∀ links, result = Some links →
       ∃ soup,
         driver_get (length (driver_log st)) url = Some soup
         ∧ length links ≤ length (anchors soup)
         ∧ ∀ v, v ∈ links → links_of urljoin url soup v).
Proof.
  unfold Crawler.process_page.
  destruct (choose_proxy_rng proxies (rng st)) as (proxy & g & ->).
  destruct (driver_get (length (driver_log st)) url) as [soup|] eqn:Hget;
    simpl;
    [|intros [= <- <-]; simpl; split_and!; try done;
      exists []; rewrite app_nil_r; split; [done|by intros ? ?%elem_of_nil]].
  destruct (canonical_url url (visited_urls st) soup) as [url'|] eqn:Hcan;
    simpl;
    [|intros [= <- <-]; simpl; split_and!; try done;
      exists []; rewrite app_nil_r; split; [done|by intros ? ?%elem_of_nil]].
  destruct (extract_content soup) as [content|];
    intros [= <- <-]; simpl; split_and!; try done; try set_solver.
  - eexists [_]. split; [done|]. intros row ->%list_elem_of_singleton.
    unfold row_url; simpl. split; [set_solver|].
    apply canonical_url_cases in Hcan as [->|[Hcan ?]].
    + split; [done|by left].
    + split; [done|right; eauto].
  - intros links [= <-]. exists soup. split; [done|].
    split; [apply page_links_length|].
    intros v (link & Hin & Hjoin & _)%page_links_elem.
    exists url', link. split_and!; try done.
    apply canonical_url_cases in Hcan as [->|[? _]]; auto.
  - exists []. rewrite app_nil_r. split; [done|by intros ? ?%elem_of_nil].
Qed.

(** ** The visited set only grows *)

Lemma extends_refl st : extends st st.
Proof.
  split; [done|]. exists [], []. by rewrite !app_nil_r.
Qed.

Lemma extends_trans st1 st2 st3 :
  extends st1 st2 → extends st2 st3 → extends st1 st3.
Proof.
  intros (Hvs1 & gets1 & rows1 & Hlog1 & Hrows1 & Hg1 & Hr1)
         (Hvs2 & gets2 & rows2 & Hlog2 & Hrows2 & Hg2 & Hr2).
  split; [set_solver|].
  exists (gets1 ++ gets2), (rows1 ++ rows2).
  rewrite Hlog2, Hlog1, Hrows2, Hrows1, !app_assoc. split_and!; try done.
  - apply Forall_app. split; [done|].
    eapply Forall_impl; [exact Hg2|]. set_solver.
  - apply Forall_app. split.
    + eapply Forall_impl; [exact Hr1|].
      intros row [? ?]. split; [done|]. by apply Hvs2.
    + eapply Forall_impl; [exact Hr2|].
      intros row [Hnew ?]. split; [|done]. intros ?. by apply Hnew, Hvs1.
Qed.

Lemma process_page_extends proxies domain_restriction depth url st st'
    (result : option (list string)) :
  url ∉ visited_urls st →
  process_page proxies domain_restriction depth url st = (st', result) →
  extends st st'.
Proof.
  intros Hurl (Hvs & Hlog & (rows & Hrows & Hfresh) & _)%process_page_effects.
  split; [done|]. exists [(url, depth)], rows. split_and!; try done.
  - by apply Forall_singleton.
  - apply Forall_forall. intros row Hrow.
    destruct (Hfresh row Hrow) as (? & ? & _). split; auto.
Qed.

Lemma skip_url_false url st :
  skip_url url st = false →
  (url ∉ visited_urls st) ∧ is_spider_trap url = false.
Proof.
  unfold skip_url. intros [H1 H2]%orb_false_elim.
  by apply bool_decide_eq_false in H1.
Qed.

Lemma fetch_url_extends proxies domain_restriction depth :
  ∀ url st, extends st (fetch_url proxies domain_restriction depth url st).
Proof.
  induction depth as [|below IH]; intros url st; simpl;
    [apply extends_refl|].
  destruct (skip_url url st) eqn:Hskip; [apply extends_refl|].
  apply skip_url_false in Hskip as [Hurl _].
  destruct (process_page proxies domain_restriction (S below) url st)
    as [st' [links|]] eqn:Hpage;
    apply process_page_extends in Hpage; try done.
  revert st' Hpage. induction links as [|u links IHl]; intros st' Hst';
    simpl; [done|].
  apply IHl. eapply extends_trans; [exact Hst'|apply IH].
Qed.

Lemma bfs_loop_extends start_urls (depth : Z) domain_restriction proxies
    fuel :
  ∀ queue st st',
    bfs_loop start_urls depth domain_restriction proxies fuel queue st
    = Some st' →
    extends st st'.
Proof.
  induction fuel as [|fuel IH]; intros [|[url cd] queue] st st'; simpl;
    try done; try (intros [= <-]; apply extends_refl).
  destruct (_ || _); [by apply IH|].
  intros Hrest%IH. eapply extends_trans; [|exact Hrest].
  apply fetch_url_extends.
Qed.

(** C3, as the code has it.  [visited_urls] is a module-level set that
    [web_crawler] neither creates nor clears: an invocation starts from the
    set the earlier invocations of the process left, with only
    [save_results] new.  So the set it leaves contains the one it found,
    and a URL that was visited before the invocation is neither passed to
    [driver.get] nor recorded during it. *)
Theorem visited_urls_outlive_the_run fuel urls (depth : Z)
    domain_restriction proxies st st' :
  web_crawler fuel urls depth domain_restriction proxies st = Some st' →
  visited_urls st ⊆ visited_urls st'
  ∧ ∃ gets,
      driver_log st' = driver_log st ++ gets
      ∧ ∀ u, u ∈ visited_urls st →
          (u ∉ gets.*1) ∧ (u ∉ row_url <$> save_results st').
Proof.
  unfold Crawler.web_crawler, Crawler.bfs_crawl.
  intros (Hvs & gets & rows & Hlog & Hrows & Hgets & Hfresh)%bfs_loop_extends.
  simpl in *. split; [done|]. exists gets. split; [done|].
  intros u Hu. rewrite Hrows. split.
  - intros (g & -> & Hg)%list_elem_of_fmap.
    rewrite Forall_forall in Hgets. by apply (Hgets g Hg).
  - intros (row & -> & Hrow)%list_elem_of_fmap.
    rewrite Forall_forall in Hfresh. by apply (Hfresh row Hrow).
Qed.

(** ** The pools run in order: no duplicates, no retry, one domain *)

Lemma process_page_distinct proxies domain_restriction depth url st st'
    (result : option (list string)) :
  url ∉ visited_urls st →
  distinct_rows st →
  process_page proxies domain_restriction depth url st = (st', result) →
  distinct_rows st'.
Proof.
  intros Hurl [Hnodup Hvisited] Hpage.
  pose proof Hpage as (Hvs & _ & (rows & Hrows & Hnew) & _)%process_page_effects.
  assert (rows = [] ∨ ∃ row, rows = [row]) as Hone.
  { revert Hpage Hrows. unfold Crawler.process_page.
    destruct (choose_proxy_rng proxies (rng st)) as (proxy & g & ->).
    assert (∀ l : list Row, l = l ++ rows → rows = []) as Hnil.
    { intros l Hl%(f_equal length). rewrite length_app in Hl.
      destruct rows; simpl in *; [done|lia]. }
    destruct (driver_get _ url) as [soup|]; simpl;
      [|intros [= <- <-]; simpl; eauto].
    destruct (canonical_url _ _ soup) as [url'|]; simpl;
      [|intros [= <- <-]; simpl; eauto].
    destruct (extract_content soup) as [content|];
      intros [= <- <-]; simpl; [|eauto].
    intros <-%app_inv_head. eauto. }
  unfold distinct_rows. rewrite Hrows, fmap_app. split.
  - apply NoDup_app. split_and!; [done| |].
    + intros x (old & -> & Hold)%list_elem_of_fmap
               (row & Hx & Hrow)%list_elem_of_fmap.
      rewrite Forall_forall in Hvisited.
      destruct (Hnew row Hrow) as (_ & Hfresh & _).
      apply (Hfresh Hurl). rewrite <- Hx. by apply Hvisited.
    + destruct Hone as [->|[row ->]]; [constructor|apply NoDup_singleton].
  - apply Forall_app. split.
    + eapply Forall_impl; [exact Hvisited|]. intros row ?. by apply Hvs.
    + apply Forall_forall. intros row Hrow. by apply Hnew.
Qed.

Lemma fetch_url_distinct proxies domain_restriction depth :
  ∀ url st,
    distinct_rows st →
    distinct_rows (fetch_url proxies domain_restriction depth url st).
Proof.
  induction depth as [|below IH]; intros url st Hst; simpl; [done|].
  destruct (skip_url url st) eqn:Hskip; [done|].
  apply skip_url_false in Hskip as [Hurl _].
  destruct (process_page proxies domain_restriction (S below) url st)
    as [st' [links|]] eqn:Hpage;
    apply process_page_distinct in Hpage; try done.
  revert st' Hpage. induction links as [|u links IHl]; intros st' Hst';
    simpl; [done|].
  by apply IHl, IH.
Qed.

Lemma bfs_loop_distinct start_urls (depth : Z) domain_restriction proxies
    fuel :
  ∀ queue st st',
    distinct_rows st →
    bfs_loop start_urls depth domain_restriction proxies fuel queue st
    = Some st' →
    distinct_rows st'.
Proof.
  induction fuel as [|fuel IH]; intros [|[url cd] queue] st st' Hst; simpl;
    try done; try (by intros [= <-]).
  destruct (_ || _); [by apply IH|].
  apply IH. by apply fetch_url_distinct.
Qed.

(** When the tasks of every pool run one after the other, no URL is
    recorded twice by an invocation of [web_crawler]. *)
Theorem rows_are_distinct_in_order fuel urls (depth : Z) domain_restriction
    proxies st st' :
  web_crawler fuel urls depth domain_restriction proxies st = Some st' →
  NoDup (row_url <$> save_results st').
Proof.
  unfold Crawler.web_crawler, Crawler.bfs_crawl.
  intros [? _]%bfs_loop_distinct; [done|].
  split; simpl; constructor.
Qed.

(** A call of [fetch_url] whose [driver.get] raises has made that one call
    and nothing else: there is no second attempt. *)
Theorem failed_get_is_not_retried proxies domain_restriction below url st :
  skip_url url st = false →
  driver_get (length (driver_log st)) url = None →
  observable (fetch_url proxies domain_restriction (S below) url st)
  = (visited_urls st, save_results st, driver_log st ++ [(url, S below)]).
Proof.
  intros Hskip Hget. simpl. rewrite Hskip. unfold Crawler.process_page.
  destruct (choose_proxy_rng proxies (rng st)) as (proxy & g & ->).
  by rewrite Hget.
Qed.

Lemma fetch_url_same_domain proxies depth :
  (∀ n u soup h,
     driver_get n u = Some soup → canonical soup = Value h →
     netloc h = netloc u) →
  ∀ url st,
    ∃ gets,
      driver_log (fetch_url proxies true depth url st)
      = driver_log st ++ gets
      ∧ Forall (λ g, netloc g.1 = netloc url) gets.
Proof.
  intros Hcanon. induction depth as [|below IH]; intros url st; simpl.
  { exists []. by rewrite app_nil_r. }
  destruct (skip_url url st); [exists []; by rewrite app_nil_r|].
  destruct (process_page proxies true (S below) url st)
    as [st' result] eqn:Hpage.
  pose proof Hpage as (_ & Hlog & _ & _)%process_page_effects.
  assert (∀ links, result = Some links →
            Forall (λ v, netloc v = netloc url) links) as Hlinks.
  { intros links ->. revert Hpage. unfold Crawler.process_page.
    destruct (choose_proxy_rng proxies (rng st)) as (proxy & g & ->).
    destruct (driver_get _ url) as [soup|] eqn:Hget; simpl; [|done].
    destruct (canonical_url _ _ soup) as [url'|] eqn:Hcan; simpl; [|done].
    destruct (extract_content soup) as [content|]; [|done].
    intros [= _ <-]. apply Forall_forall.
    intros v (link & _ & _ & _ & Hdom & _)%page_links_elem.
    rewrite <- (Hdom eq_refl).
    apply canonical_url_cases in Hcan as [->|[Hcan _]]; [done|].
    by eapply Hcanon. }
  destruct result as [links|];
    [|exists [(url, S below)]; split; [done|by apply Forall_singleton]].
  specialize (Hlinks links eq_refl).
  assert (∃ gets,
            driver_log
              (fold_left (λ st u, fetch_url proxies true below u st)
                 links st')
            = driver_log st' ++ gets
            ∧ Forall (λ g, netloc g.1 = netloc url) gets)
    as (gets & Hgets & Hdom).
  { clear Hlog Hpage. revert st'.
    induction Hlinks as [|v links Hv _ IHl]; intros st'; simpl.
    { exists []. by rewrite app_nil_r. }
    destruct (IH v st') as (gets1 & Hlog1 & Hdom1).
    destruct (IHl (fetch_url proxies true below v st'))
      as (gets2 & Hlog2 & Hdom2).
    exists (gets1 ++ gets2). rewrite Hlog2, Hlog1, app_assoc.
    split; [done|]. apply Forall_app. split; [|done].
    eapply Forall_impl; [exact Hdom1|]. simpl. congruence. }
  exists ((url, S below) :: gets). rewrite Hgets, Hlog, <- app_assoc.
  split; [done|]. by constructor.
Qed.

(** With domain restriction on, and on a web where no page names a
    canonical URL of another host, every URL that a call of [fetch_url]
    passes to [driver.get] has the host of the URL it was called with. *)
Theorem restriction_holds_without_foreign_canonical proxies depth url st :
  (∀ n u soup h,
     driver_get n u = Some soup → canonical soup = Value h →
     netloc h = netloc u) →
  ∃ gets,
    driver_log (fetch_url proxies true depth url st) = driver_log st ++ gets
    ∧ ∀ g, g ∈ gets → netloc g.1 = netloc url.
Proof.
  intros Hcanon.
  destruct (fetch_url_same_domain proxies depth Hcanon url st)
    as (gets & Hlog & Hdom).
  exists gets. split; [done|]. by apply Forall_forall.
Qed.

(** ** Sums over the workers of a pool *)

Lemma total_app {A} (g : A → nat) (l1 l2 : list A) :
  total g (l1 ++ l2) = total g l1 + total g l2.
Proof. induction l1 as [|x l1 IH]; simpl; [done|]. rewrite IH. lia. Qed.

Lemma total_delete {A} (g : A → nat) (l : list A) i x :
  l !! i = Some x → total g l = g x + total g (delete i l).
Proof.
  revert i. induction l as [|y l IH]; intros [|i]; simpl; try done.
  - by intros [= ->].
  - intros Hx. rewrite (IH i Hx). lia.
Qed.

Lemma total_insert {A} (g : A → nat) (l : list A) i x y :
  l !! i = Some x → total g (<[i:=y]> l) + g x = total g l + g y.
Proof.
  revert i. induction l as [|z l IH]; intros [|i]; simpl; try done.
  - intros [= ->]. lia.
  - intros Hx. specialize (IH i Hx). lia.
Qed.

Lemma total_le {A} (g : A → nat) (l : list A) c :
  Forall (λ x, g x ≤ c) l → total g l ≤ length l * c.
Proof. induction 1; simpl; lia. Qed.

(** ** Steps of a call *)

Lemma step_store W proxies domain_restriction a :
  ∀ f f' st st',
    step W proxies domain_restriction a f st = Some (f', st') →
    st' = st
    ∨ ∃ u depth result,
        process_page proxies domain_restriction depth u st = (st', result).
Proof.
  induction a as [| |i a IH]; intros f f' st st' Hstep;
    destruct f as [u depth|u below|tasks below workers|]; simpl in Hstep;
    try done.
  - destruct depth; [|destruct (skip_url u st)]; naive_solver.
  - destruct (process_page proxies domain_restriction (S below) u st)
      as [st1 [links|]] eqn:Hpage; simplify_eq; eauto.
  - destruct tasks, workers; naive_solver.
  - destruct tasks; [done|]. case_bool_decide; naive_solver.
  - destruct (workers !! i) as [w|]; [|done].
    destruct (step W proxies domain_restriction a w st) as [[w' st1]|] eqn:Hw;
      [|done].
    apply IH in Hw. destruct w'; simplify_eq; done.
Qed.

Lemma step_visited W proxies domain_restriction a f f' st st' :
  step W proxies domain_restriction a f st = Some (f', st') →
  visited_urls st ⊆ visited_urls st'.
Proof.
  intros [->|(u & depth & result & Hpage)]%step_store; [done|].
  by apply process_page_effects in Hpage as [? _].
Qed.

Lemma adds_within_refl seeds d st : adds_within seeds d st st.
Proof. exists [], []. by rewrite !app_nil_r. Qed.

Lemma adds_within_trans seeds d st1 st2 st3 :
  adds_within seeds d st1 st2 → adds_within seeds d st2 st3 →
  adds_within seeds d st1 st3.
Proof.
  intros (gets1 & rows1 & Hlog1 & Hrows1 & Hg1 & Hr1)
         (gets2 & rows2 & Hlog2 & Hrows2 & Hg2 & Hr2).
  exists (gets1 ++ gets2), (rows1 ++ rows2).
  rewrite Hlog2, Hlog1, Hrows2, Hrows1, !app_assoc.
  split_and!; try done; by apply Forall_app.
Qed.

Lemma step_at_level W seeds d proxies domain_restriction a :
  ∀ f f' st st' r,
    at_level W seeds d r f →
    step W proxies domain_restriction a f st = Some (f', st') →
    at_level W seeds d r f' ∧ adds_within seeds d st st'.
Proof.
  induction a as [| |i a IH]; intros f f' st st' r Hlevel Hstep;
    destruct f as [u depth|u below|tasks below workers|]; simpl in Hstep;
    try done; inversion Hlevel; subst.
  - (* the opening test *)
    destruct depth as [|below].
    + simplify_eq. split; [constructor|apply adds_within_refl].
    + destruct (skip_url u st); simplify_eq;
        (split; [by constructor|apply adds_within_refl]).
  - (* the page is loaded *)
    destruct (process_page proxies domain_restriction (S below) u st)
      as [st1 result] eqn:Hpage.
    apply process_page_effects in Hpage
      as (_ & Hlog & (rows & Hrows & Hnames) & Hlinks).
    assert (adds_within seeds d st st1) as Hadds.
    { exists [(u, S below)], rows. split_and!; try done.
      - apply Forall_singleton. unfold Crawler.within; simpl.
        split_and!; [lia|done|done].
      - apply Forall_forall. intros row (_ & _ & Hname)%Hnames.
        exists u, (d - S below). split_and!; [lia|done|done]. }
    destruct result as [links|]; simplify_eq; (split; [|done]);
      [|constructor].
    destruct (Hlinks links eq_refl) as (soup & Hget & _ & Hof).
    constructor; [done| |simpl; lia|constructor].
    apply Forall_forall. intros v Hv%Hof.
    replace (d - below) with (S (d - S below)) by lia.
    econstructor; [eassumption|]. by exists (length (driver_log st)), soup.
  - (* the pool is left *)
    destruct tasks, workers; simplify_eq.
    split; [constructor|apply adds_within_refl].
  - (* a worker takes a link *)
    destruct tasks as [|v tasks]; [done|]. case_bool_decide; simplify_eq.
    split; [|apply adds_within_refl].
    match goal with H : Forall _ (_ :: _) |- _ =>
      apply Forall_cons in H as [Hv Htasks] end.
    constructor; [done|done|rewrite length_app; simpl; lia|].
    apply Forall_app. split; [done|]. apply Forall_singleton.
    split; [done|]. constructor; [lia|done].
  - (* a worker's call takes a step *)
    destruct (workers !! i) as [w|] eqn:Hi; [|done].
    destruct (step W proxies domain_restriction a w st) as [[w' st1]|] eqn:Hw;
      [|done].
    match goal with H : Forall _ workers |- _ =>
      pose proof (Forall_lookup_1 _ _ _ _ H Hi) as [_ Hwlevel];
      pose proof H as Hworkers end.
    destruct (IH _ _ _ _ _ Hwlevel Hw) as [Hw' Hadds].
    assert (w' ≠ Done →
            at_level W seeds d (S below)
              (Pool tasks below (<[i:=w']> workers))) as Hinsert.
    { intros Hlive. constructor; [done|done|by rewrite length_insert|].
      by apply Forall_insert. }
    destruct w'; simplify_eq; (split; [|done]); try (by apply Hinsert).
    constructor; [done|done| |by apply Forall_delete].
    rewrite length_delete by eauto. lia.
Qed.

(** ** Steps of the crawl *)

Lemma crawl_invariant_start W seeds (depth : Z) st :
  crawl_invariant W seeds depth (store (crawl_start seeds st))
    (crawl_start seeds st).
Proof.
  split_and!; simpl; [|done|apply adds_within_refl].
  apply Forall_forall. intros entry (s & -> & Hs)%list_elem_of_fmap.
  by left.
Qed.

Lemma links_to_crawl_visited start_urls st (current_depth : Z) :
  Forall (λ entry, entry.1 ∈ visited_urls st)
    (links_to_crawl netloc start_urls st current_depth).
Proof.
  apply Forall_forall. intros entry (s & -> & Hs)%list_elem_of_fmap. simpl.
  apply list_elem_of_In, filter_In in Hs as [Hs%list_elem_of_In _].
  by apply elem_of_elements in Hs.
Qed.

Lemma mstep_invariant W seeds (depth : Z) domain_restriction proxies st0
    (a : MAction) m m' :
  crawl_invariant W seeds depth st0 m →
  mstep W seeds depth domain_restriction proxies a m = Some m' →
  crawl_invariant W seeds depth st0 m'.
Proof.
  destruct m as [queue running st]. intros (Hqueue & Hrun & Hadds).
  unfold Crawler.mstep; simpl in *.
  destruct a as [|a], running as [[cd f]|]; try done.
  - (* the call has returned *)
    destruct f; try done. intros [= <-]. split_and!; simpl; [|done|done].
    apply Forall_app. split; [done|].
    eapply Forall_impl; [apply links_to_crawl_visited|]. simpl. auto.
  - (* the loop pops an entry *)
    destruct queue as [|[u cd] queue]; [done|].
    apply Forall_cons in Hqueue as [Hu Hqueue]. simpl in Hu.
    destruct (_ || _) eqn:Hskip; intros [= <-]; split_and!; simpl; try done.
    intros cd' f [= <- <-].
    apply orb_false_elim in Hskip as [Hcd%bool_decide_eq_false
                                      Hnew%bool_decide_eq_false].
    destruct Hu as [[-> Hseed]|?]; [|done]. split; [done|].
    rewrite Z.sub_0_r. constructor; [done|].
    rewrite Nat.sub_diag. by constructor.
  - (* the call takes a step *)
    destruct (step W proxies domain_restriction a f st) as [[f' st']|] eqn:Hf;
      [|done].
    intros [= <-]. destruct (Hrun cd f eq_refl) as [-> Hlevel].
    destruct (step_at_level _ _ _ _ _ _ _ _ _ _ _ Hlevel Hf) as [Hf' Hst'].
    apply step_visited in Hf.
    split_and!; simpl.
    + eapply Forall_impl; [exact Hqueue|]. simpl. intros entry [?|?]; auto.
    + by intros ? ? [= <- <-].
    + by eapply adds_within_trans.
Qed.

Lemma run_machine_invariant W seeds (depth : Z) domain_restriction proxies
    st0 schedule :
  ∀ m m',
    crawl_invariant W seeds depth st0 m →
    run_machine W seeds depth domain_restriction proxies schedule m
    = Some m' →
    crawl_invariant W seeds depth st0 m'.
Proof.
  induction schedule as [|a schedule IH]; intros m m' Hm; simpl;
    [by intros [= <-]|].
  destruct (mstep W seeds depth domain_restriction proxies a m)
    as [m1|] eqn:Hstep; [|done].
  apply IH. by eapply mstep_invariant.
Qed.

Lemma at_level_calls W seeds d :
  ∀ r f,
    at_level W seeds d r f →
    Forall (λ call, ∃ k, k + call.2 = d ∧ distance seeds k call.1)
      (calls_of f).
Proof.
  induction r as [|r IH]; intros f Hf; inversion Hf; subst; simpl;
    try done.
  - apply Forall_singleton. exists (d - 0). split; [simpl; lia|done].
  - apply Forall_singleton. exists (d - S r). split; [simpl; lia|done].
  - apply Forall_singleton. exists (d - S r). split; [simpl; lia|done].
  - apply Forall_app. split.
    + apply Forall_fmap. eapply Forall_impl; [eassumption|].
      intros u Hu. exists (d - r). split; [simpl; lia|done].
    + apply Forall_concat, Forall_fmap.
      eapply Forall_impl; [eassumption|].
      intros w [_ Hw]. by apply IH.
Qed.

(** ** Every step uses up some of a bounded supply *)

Lemma step_weight W B proxies domain_restriction a :
  (∀ n u soup, driver_get n u = Some soup → length (anchors soup) ≤ B) →
  ∀ f f' st st',
    step W proxies domain_restriction a f st = Some (f', st') →
    weight B f' < weight B f.
Proof.
  intros Hfinite.
  induction a as [| |i a IH]; intros f f' st st' Hstep;
    destruct f as [u depth|u below|tasks below workers|]; simpl in Hstep;
    try done.
  - destruct depth as [|below]; [|destruct (skip_url u st)]; simplify_eq;
      simpl; lia.
  - destruct (process_page proxies domain_restriction (S below) u st)
      as [st1 result] eqn:Hpage.
    apply process_page_effects in Hpage as (_ & _ & _ & Hlinks).
    destruct result as [links|]; simplify_eq; simpl; [|lia].
    destruct (Hlinks links eq_refl) as (soup & Hget%Hfinite & Hlen & _).
    assert (length links * S (S (call_weight B below))
            ≤ B * S (S (call_weight B below)))
      by (apply Nat.mul_le_mono_r; lia).
    lia.
  - destruct tasks, workers; simplify_eq. simpl. lia.
  - destruct tasks as [|v tasks]; [done|]. case_bool_decide; simplify_eq.
    simpl. rewrite total_app. simpl. lia.
  - destruct (workers !! i) as [w|] eqn:Hi; [|done].
    destruct (step W proxies domain_restriction a w st) as [[w' st1]|] eqn:Hw;
      [|done].
    apply IH in Hw.
    pose proof (total_delete (λ w, S (weight B w)) workers i w Hi).
    pose proof (total_insert (λ w, S (weight B w)) workers i w w' Hi).
    destruct w'; simplify_eq; simpl in *; lia.
Qed.

Lemma run_frame_weight W B proxies domain_restriction
    (schedule : list Action) :
  (∀ n u soup, driver_get n u = Some soup → length (anchors soup) ≤ B) →
  ∀ f f' st st',
    run_frame W proxies domain_restriction schedule f st = Some (f', st') →
    length schedule + weight B f' ≤ weight B f.
Proof.
  intros Hfinite. induction schedule as [|a schedule IH];
    intros f f' st st'; simpl; [by intros [= -> _]|].
  destruct (step W proxies domain_restriction a f st) as [[f1 st1]|] eqn:Hstep;
    [|done].
  intros Hrest%IH. apply (step_weight W B) in Hstep; [lia|done].
Qed.

Lemma live_entries_app (depth : Z) st (q1 q2 : list (string * Z)) :
  live_entries depth st (q1 ++ q2)
  = live_entries depth st q1 + live_entries depth st q2.
Proof.
  unfold live_entries. by rewrite List.filter_app, length_app.
Qed.

Lemma live_entries_cons (depth : Z) st entry (queue : list (string * Z)) :
  live_entries depth st (entry :: queue)
  = (if live depth st entry then 1 else 0) + live_entries depth st queue.
Proof. unfold live_entries. simpl. by destruct (live depth st entry). Qed.

Lemma live_entries_visited (depth : Z) st (queue : list (string * Z)) :
  Forall (λ entry, entry.1 ∈ visited_urls st) queue →
  live_entries depth st queue = 0.
Proof.
  unfold live_entries. induction 1 as [|entry queue Hentry _ IH]; [done|].
  simpl. unfold live at 1. rewrite (bool_decide_eq_true_2 _ Hentry).
  by rewrite orb_true_r.
Qed.

Lemma live_entries_mono (depth : Z) st st' (queue : list (string * Z)) :
  visited_urls st ⊆ visited_urls st' →
  live_entries depth st' queue ≤ live_entries depth st queue.
Proof.
  intros Hvs. unfold live_entries.
  induction queue as [|entry queue IH]; simpl; [done|].
  destruct (live depth st' entry) eqn:Hlive'; simpl.
  - assert (live depth st entry = true) as ->; [|simpl; lia].
    unfold live in *. apply negb_true_iff, orb_false_elim in Hlive'
      as [-> Hnew%bool_decide_eq_false].
    simpl. apply negb_true_iff, bool_decide_eq_false. set_solver.
  - destruct (live depth st entry); simpl; lia.
Qed.

Lemma mstep_measure W B start_urls (depth : Z) domain_restriction proxies
    (a : MAction) m m' :
  (∀ n u soup, driver_get n u = Some soup → length (anchors soup) ≤ B) →
  mstep W start_urls depth domain_restriction proxies a m = Some m' →
  let entries m := live_entries depth (store m) (queue m) in
  entries m' < entries m
  ∨ (entries m' ≤ entries m
     ∧ running_weight B (running m') < running_weight B (running m))
  ∨ (entries m' ≤ entries m
     ∧ running_weight B (running m') ≤ running_weight B (running m)
     ∧ length (queue m') < length (queue m)).
Proof.
  intros Hfinite. destruct m as [queue running st].
  unfold Crawler.mstep; simpl.
  destruct a as [|a], running as [[cd f]|]; try done.
  - destruct f; try done. intros [= <-]; simpl. right; left.
    rewrite live_entries_app.
    rewrite (live_entries_visited _ _ (links_to_crawl _ _ _ _))
      by apply links_to_crawl_visited.
    lia.
  - destruct queue as [|[u cd] queue]; [done|].
    rewrite live_entries_cons. unfold live; simpl.
    destruct (_ || _); intros [= <-]; simpl; [right; right|left]; lia.
  - destruct (step W proxies domain_restriction a f st) as [[f' st']|] eqn:Hf;
      [|done].
    intros [= <-]; simpl. right; left. split.
    + apply live_entries_mono. by eapply step_visited.
    + apply step_weight with (B := B) in Hf; [lia|done].
Qed.

Lemma crawl_steps_end W B start_urls (depth : Z) domain_restriction proxies m :
  (∀ n u soup, driver_get n u = Some soup → length (anchors soup) ≤ B) →
  Acc (λ m' m, steps_to W start_urls depth domain_restriction proxies m m') m.
Proof.
  intros Hfinite.
  remember (live_entries depth (store m) (queue m)) as x eqn:Hx.
  remember (running_weight B (running m)) as y eqn:Hy.
  remember (length (queue m)) as z eqn:Hz.
  revert y z m Hx Hy Hz.
  induction x as [x IHx] using lt_wf_ind. intros y.
  induction y as [y IHy] using lt_wf_ind. intros z.
  induction z as [z IHz] using lt_wf_ind. intros m -> -> ->.
  constructor. intros m' [a Hstep].
  apply (mstep_measure W B) in Hstep; [|done]. simpl in Hstep.
  destruct Hstep as [Hlt|[[Hle Hlt]|(Hle1 & Hle2 & Hlt)]].
  - by eapply IHx.
  - apply Nat.lt_eq_cases in Hle as [?|Heq]; [by eapply IHx|].
    eapply IHy; [exact Hlt|done..].
  - apply Nat.lt_eq_cases in Hle1 as [?|Heq1]; [by eapply IHx|].
    apply Nat.lt_eq_cases in Hle2 as [?|Heq2]; [by eapply IHy|].
    eapply IHz; [exact Hlt|done..].
Qed.

(** ** A crawl that has not ended can take a step *)

Lemma frame_progress W seeds d proxies domain_restriction :
  1 ≤ W →
  ∀ r f st,
    at_level W seeds d r f → f ≠ Done →
    ∃ a f' st', step W proxies domain_restriction a f st = Some (f', st').
Proof.
  intros HW. induction r as [|r IH]; intros f st Hf Hlive;
    inversion Hf; subst; try done.
  - by exists Run, Done, st.
  - exists Run. simpl. destruct (skip_url u st); eauto.
  - exists Run. simpl.
    destruct (process_page proxies domain_restriction (S r) u st)
      as [st1 [links|]]; eauto.
  - destruct workers as [|w workers].
    + destruct tasks as [|v tasks]; [by exists Run, Done, st|].
      exists Take. simpl. rewrite bool_decide_eq_true_2 by (simpl; lia).
      eauto.
    + match goal with H : Forall _ (_ :: _) |- _ =>
        apply Forall_cons in H as [[Hw Hwlevel] _] end.
      destruct (IH w st Hwlevel Hw) as (a & w' & st' & Hstep).
      exists (In 0 a). simpl. rewrite Hstep. destruct w'; eauto.
Qed.

Lemma crawl_progress W seeds (depth : Z) domain_restriction proxies st0 m :
  1 ≤ W →
  crawl_invariant W seeds depth st0 m →
  finished m
  ∨ ∃ (a : MAction) m',
      mstep W seeds depth domain_restriction proxies a m = Some m'.
Proof.
  intros HW (_ & Hrun & _). destruct m as [queue [[cd f]|] st];
    unfold finished, Crawler.mstep; simpl in *.
  - right. destruct (Hrun cd f eq_refl) as [_ Hlevel].
    assert (f = Done ∨ f ≠ Done) as [->|Hlive] by (destruct f; auto);
      [exists Next; eauto|].
    destruct (frame_progress W seeds _ proxies domain_restriction HW
                _ f st Hlevel Hlive) as (a & f' & st' & Hstep).
    exists (Inner a). rewrite Hstep. eauto.
  - destruct queue as [|[u cd] queue]; [by left|]. right. exists Next.
    destruct (_ || _); eauto.
Qed.

Lemma crawl_can_finish W seeds (depth : Z) domain_restriction proxies st0 :
  1 ≤ W →
  ∀ m,
    Acc (λ m' m, steps_to W seeds depth domain_restriction proxies m m') m →
    crawl_invariant W seeds depth st0 m →
    ∃ schedule m',
      run_machine W seeds depth domain_restriction proxies schedule m
      = Some m'
      ∧ finished m'.
Proof.
  intros HW m Hacc. induction Hacc as [m _ IH]. intros Hinv.
  destruct (crawl_progress W seeds depth domain_restriction proxies st0 m
              HW Hinv) as [Hend|(a & m1 & Hstep)].
  - by exists [], m.
  - destruct (IH m1) as (schedule & m' & Hrun & Hend).
    + by exists a.
    + by eapply mstep_invariant.
    + exists (a :: schedule), m'. simpl. by rewrite Hstep.
Qed.

(** ** The loop of [bfs_crawl] returns *)

Lemma bfs_loop_returns start_urls (depth : Z) domain_restriction proxies :
  ∀ n queue st,
    live_entries depth st queue ≤ n →
    ∃ fuel st',
      bfs_loop start_urls depth domain_restriction proxies fuel queue st
      = Some st'.
Proof.
  induction n as [|n IHn]; intros queue;
    induction queue as [|[u cd] queue IHq]; intros st Hn;
    try (by exists 0, st).
  - rewrite live_entries_cons in Hn. unfold live in Hn; simpl in Hn.
    destruct (_ || _) eqn:Hskip; simpl in Hn; [|lia].
    destruct (IHq st) as (fuel & st' & Hrun); [lia|].
    exists (S fuel), st'. simpl. by rewrite Hskip.
  - rewrite live_entries_cons in Hn. unfold live in Hn; simpl in Hn.
    destruct (_ || _) eqn:Hskip; simpl in Hn.
    + destruct (IHq st) as (fuel & st' & Hrun); [lia|].
      exists (S fuel), st'. simpl. by rewrite Hskip.
    + set (st1 := fetch_url proxies domain_restriction
                    (Z.to_nat (depth - cd)) u st).
      destruct (IHn (queue ++ links_to_crawl netloc start_urls st1 cd) st1)
        as (fuel & st' & Hrun).
      { rewrite live_entries_app.
        rewrite (live_entries_visited _ _ (links_to_crawl _ _ _ _))
          by apply links_to_crawl_visited.
        pose proof (live_entries_mono depth st st1 queue
                      (proj1 (fetch_url_extends _ _ _ _ _))).
        lia. }
      exists (S fuel), st'. simpl. by rewrite Hskip.
Qed.

(** C8.  A crawl ends, whatever the depth and the number [W ≥ 1] of
    workers per pool, on every web whose pages have a bounded number of
    anchors (a finite link graph in particular, acyclic or not): no
    sequence of steps of the crawl goes on for ever, every state a
    schedule reaches is finished or has a step to take and a schedule that
    finishes the crawl, a call of [fetch_url] with depth [r] takes at most
    [call_weight B r] steps under any schedule, and [web_crawler] with its
    pools run in order returns for some amount of fuel. *)
Theorem crawl_terminates W B urls (depth : Z) domain_restriction proxies st :
  1 ≤ W →
  (∀ n u soup, driver_get n u = Some soup → length (anchors soup) ≤ B) →
  Acc (λ m' m, steps_to W urls depth domain_restriction proxies m m')
    (crawl_start urls st)
  ∧ (∀ schedule m,
       run_machine W urls depth domain_restriction proxies schedule
         (crawl_start urls st) = Some m →
       (finished m
        ∨ ∃ (a : MAction) m',
            mstep W urls depth domain_restriction proxies a m = Some m')
       ∧ ∃ schedule' m',
           run_machine W urls depth domain_restriction proxies schedule' m
           = Some m'
           ∧ finished m')
  ∧ (∀ u r (schedule : list Action) st0 f' st',
       run_frame W proxies domain_restriction schedule (Call u r) st0
       = Some (f', st') →
       length schedule ≤ call_weight B r)
  ∧ ∃ fuel st',
      web_crawler fuel urls depth domain_restriction proxies st = Some st'.
Proof.
  intros HW Hfinite. split_and!.
  - by apply (crawl_steps_end W B).
  - intros schedule m Hrun.
    pose proof (run_machine_invariant W urls depth domain_restriction
                  proxies _ schedule _ m
                  (crawl_invariant_start W urls depth st) Hrun) as Hinv.
    split; [by eapply crawl_progress|].
    eapply crawl_can_finish; [done| |exact Hinv].
    by apply (crawl_steps_end W B).
  - intros u r schedule st0 f' st' Hrun.
    apply (run_frame_weight W B) in Hrun; [|done]. simpl in Hrun. lia.
  - unfold Crawler.web_crawler, Crawler.bfs_crawl.
    by eapply bfs_loop_returns.
Qed.

(** ** The pools run in order are one of the schedules *)

Lemma step_done W proxies domain_restriction a st :
  step W proxies domain_restriction a Done st = None.
Proof. by destruct a. Qed.

Lemma run_frame_app W proxies domain_restriction (s1 s2 : list Action) :
  ∀ f st,
    run_frame W proxies domain_restriction (s1 ++ s2) f st
    = match run_frame W proxies domain_restriction s1 f st with
      | Some (f', st') => run_frame W proxies domain_restriction s2 f' st'
      | None => None
      end.
Proof.
  induction s1 as [|a s1 IH]; intros f st; simpl; [done|].
  destruct (step W proxies domain_restriction a f st) as [[f1 st1]|]; [|done].
  apply IH.
Qed.

Lemma run_frame_in_pool W proxies domain_restriction tasks below
    (schedule : list Action) :
  ∀ w st st',
    w ≠ Done →
    run_frame W proxies domain_restriction schedule w st = Some (Done, st') →
    run_frame W proxies domain_restriction (In 0 <$> schedule)
      (Pool tasks below [w]) st
    = Some (Pool tasks below [], st').
Proof.
  induction schedule as [|a schedule IH]; intros w st st' Hw; simpl;
    [by intros [= -> _]|].
  destruct (step W proxies domain_restriction a w st) as [[w1 st1]|] eqn:Hstep;
    [|done].
  intros Hrest.
  assert (w1 = Done ∨ w1 ≠ Done) as [->|Hw1] by (destruct w1; auto).
  - destruct schedule as [|b schedule]; simpl in *.
    + by simplify_eq.
    + by rewrite step_done in Hrest.
  - rewrite <- (IH w1 st1 st' Hw1 Hrest). by destruct w1.
Qed.

Lemma fetch_url_schedule W proxies domain_restriction :
  1 ≤ W →
  ∀ depth url st,
    ∃ schedule,
      run_frame W proxies domain_restriction schedule (Call url depth) st
      = Some (Done, fetch_url proxies domain_restriction depth url st).
Proof.
  intros HW. induction depth as [|below IH]; intros url st;
    [by exists [Run]|].
  simpl. destruct (skip_url url st) eqn:Hskip.
  { exists [Run]. simpl. by rewrite Hskip. }
  destruct (process_page proxies domain_restriction (S below) url st)
    as [st1 [links|]] eqn:Hpage.
  2: { exists [Run; Run]. simpl. by rewrite Hskip, Hpage. }
  assert (∃ schedule,
            run_frame W proxies domain_restriction schedule
              (Pool links below []) st1
            = Some (Done,
                    fold_left
                      (λ st u, fetch_url proxies domain_restriction below u st)
                      links st1)) as [schedule Hpool].
  { clear Hpage Hskip. revert st1.
    induction links as [|u links IHl]; intros st1; [by exists [Run]|].
    destruct (IH u st1) as (s1 & Hs1).
    destruct (IHl (fetch_url proxies domain_restriction below u st1))
      as (s2 & Hs2).
    exists (Take :: (In 0 <$> s1) ++ s2). simpl.
    rewrite bool_decide_eq_true_2 by (simpl; lia). simpl.
    rewrite run_frame_app.
    erewrite run_frame_in_pool; [exact Hs2|done|exact Hs1]. }
  exists (Run :: Run :: schedule). simpl. by rewrite Hskip, Hpage.
Qed.

Lemma run_machine_app W start_urls (depth : Z) domain_restriction proxies
    (s1 s2 : list MAction) :
  ∀ m,
    run_machine W start_urls depth domain_restriction proxies (s1 ++ s2) m
    = run_machine W start_urls depth domain_restriction proxies s1 m
      ≫= run_machine W start_urls depth domain_restriction proxies s2.
Proof.
  induction s1 as [|a s1 IH]; intros m; simpl; [done|].
  destruct (mstep W start_urls depth domain_restriction proxies a m); [|done].
  apply IH.
Qed.

Lemma run_machine_inner W start_urls (depth : Z) domain_restriction proxies
    queue (cd : Z) (schedule : list Action) :
  ∀ f st f' st',
    run_frame W proxies domain_restriction schedule f st = Some (f', st') →
    run_machine W start_urls depth domain_restriction proxies
      (Inner <$> schedule) (mkMachine queue (Some (cd, f)) st)
    = Some (mkMachine queue (Some (cd, f')) st').
Proof.
  induction schedule as [|a schedule IH]; intros f st f' st'; simpl;
    [by intros [= -> ->]|].
  unfold Crawler.mstep; simpl.
  destruct (step W proxies domain_restriction a f st) as [[f1 st1]|]; [|done].
  apply IH.
Qed.

Lemma bfs_loop_schedule W start_urls (depth : Z) domain_restriction proxies :
  1 ≤ W →
  ∀ fuel queue st st',
    bfs_loop start_urls depth domain_restriction proxies fuel queue st
    = Some st' →
    ∃ schedule,
      run_machine W start_urls depth domain_restriction proxies schedule
        (mkMachine queue None st)
      = Some (mkMachine [] None st').
Proof.
  intros HW. induction fuel as [|fuel IH]; intros [|[u cd] queue] st st';
    simpl; try done; try (intros [= <-]; by exists []).
  destruct (_ || _) eqn:Hskip.
  - intros (schedule & Hrun)%IH. exists (Next :: schedule). simpl.
    unfold Crawler.mstep; simpl. by rewrite Hskip.
  - intros (s2 & Hs2)%IH.
    destruct (fetch_url_schedule W proxies domain_restriction HW
                (Z.to_nat (depth - cd)) u st) as (s1 & Hs1).
    exists (Next :: (Inner <$> s1) ++ Next :: s2). simpl.
    rewrite Hskip, run_machine_app.
    erewrite run_machine_inner; [|exact Hs1]. done.
Qed.

(** What [web_crawler] returns is what the crawl reaches under the
    schedule that runs the tasks of every pool one after the other. *)
Theorem web_crawler_is_a_schedule W fuel urls (depth : Z) domain_restriction
    proxies st st' :
  1 ≤ W →
  web_crawler fuel urls depth domain_restriction proxies st = Some st' →
  ∃ schedule,
    run_machine W urls depth domain_restriction proxies schedule
      (crawl_start urls st)
    = Some (mkMachine [] None st').
Proof.
  intros HW. unfold Crawler.web_crawler, Crawler.bfs_crawl.
  by apply bfs_loop_schedule.
Qed.

(** ** One browser for all the threads *)

(** [process_page] is [driver.get] followed at once by the read of
    [driver.page_source] and the rest of the body on that page. *)
Lemma process_page_reads_its_page proxies domain_restriction depth url st :
  process_page proxies domain_restriction depth url st
  = let st0 := mkState (visited_urls st) (save_results st)
                 (driver_log st ++ [(url, depth)])
                 (choose_proxy random_choice proxies (rng st)).2 in
    match driver_get (length (driver_log st)) url with
    | None => (st0, None)
    | Some soup => parse_page domain_restriction url st0 soup
    end.
Proof.
  unfold Crawler.process_page, Crawler.parse_page.
  by destruct (choose_proxy random_choice proxies (rng st)) as [proxy g].
Qed.

Lemma thread_of_done f : thread_of f = TDone ↔ f = Done.
Proof. by destruct f. Qed.

Lemma list_delete_insert_same {A} (l : list A) i x :
  delete i (<[i:=x]> l) = delete i l.
Proof.
  revert i. induction l as [|y l IH]; intros [|i]; simpl; try done.
  by rewrite IH.
Qed.

Lemma thread_step_in W proxies domain_restriction i a tasks below
    (workers : list Thread) (w w' : Thread) (s s' : Shared Rng) :
  workers !! i = Some w →
  thread_step W proxies domain_restriction a w s = Some (w', s') →
  thread_step W proxies domain_restriction (In i a)
    (TPool tasks below workers) s
  = Some (TPool tasks below
            (match w' with
             | TDone => delete i workers
             | _ => <[i:=w']> workers
             end), s').
Proof.
  intros Hw Hstep. simpl. rewrite Hw, Hstep.
  by destruct w'.
Qed.

(** A step of a call in which it reads the page it asked for is one step
    of its thread or two: [driver.get], and the read of [driver.page_source]
    with no other thread in between. *)
Lemma step_is_shared W proxies domain_restriction a :
  ∀ f st f' st' (page : option Page),
    step W proxies domain_restriction a f st = Some (f', st') →
    ∃ page',
      thread_step W proxies domain_restriction a (thread_of f)
        (mkShared st page)
      = Some (thread_of f', mkShared st' page')
      ∨ ∃ t s,
          thread_step W proxies domain_restriction a (thread_of f)
            (mkShared st page) = Some (t, s)
          ∧ t ≠ TDone
          ∧ thread_step W proxies domain_restriction a t s
            = Some (thread_of f', mkShared st' page').
Proof.
  induction a as [| |i a IH]; intros f st f' st' page.
  - destruct f as [u [|below]|u below|[|? ?] below [|? ?]|]; simpl; try done.
    + intros [= <- <-]. exists page. by left.
    + destruct (skip_url u st); intros [= <- <-]; exists page; by left.
    + rewrite process_page_reads_its_page.
      destruct (choose_proxy random_choice proxies (rng st)) as [proxy g].
      simpl.
      destruct (driver_get (length (driver_log st)) u) as [soup|].
      * destruct (parse_page _ _ _ soup) as [st1 [links|]] eqn:Hparse;
          intros [= <- <-]; exists (Some soup); right;
          eexists _, _; (split; [done|]); (split; [done|]); simpl;
          by rewrite Hparse.
      * intros [= <- <-]. exists page. by left.
    + intros [= <- <-]. exists page. by left.
  - destruct f as [| |[|u tasks] below workers|]; simpl; try done.
    rewrite length_fmap. case_bool_decide; [|done].
    intros [= <- <-]. exists page. left. simpl. by rewrite fmap_app.
  - destruct f as [| |tasks below workers|]; try done.
    intros Hres. simpl in Hres.
    change (thread_of (Pool tasks below workers))
      with (TPool tasks below (thread_of <$> workers)).
    destruct (workers !! i) as [w|] eqn:Hw; [|done].
    destruct (step W proxies domain_restriction a w st) as [[w' st1]|]
      eqn:Hstep; [|done].
    assert (f' = Pool tasks below
                   (match w' with
                    | Done => delete i workers
                    | _ => <[i:=w']> workers
                    end) ∧ st' = st1) as [-> ->].
    { destruct w'; simpl in Hres; by inversion Hres. }
    assert ((thread_of <$> workers) !! i = Some (thread_of w)) as Hw'
      by (by rewrite list_lookup_fmap, Hw).
    assert (thread_of <$> (match w' with
                           | Done => delete i workers
                           | _ => <[i:=w']> workers
                           end)
            = match thread_of w' with
              | TDone => delete i (thread_of <$> workers)
              | _ => <[i:=thread_of w']> (thread_of <$> workers)
              end) as Hmap.
    { destruct w';
        first [apply list_fmap_delete|apply (list_fmap_insert thread_of)]. }
    destruct (IH w st w' st1 page Hstep)
      as [page' [Hone|(t & s & Hfirst & Ht & Hsecond)]]; exists page'.
    + left. rewrite (thread_step_in _ _ _ _ _ _ _ _ _ _ _ _ Hw' Hone).
      simpl. by rewrite Hmap.
    + right. eexists _, _.
      split; [apply (thread_step_in _ _ _ _ _ _ _ _ _ _ _ _ Hw' Hfirst)|].
      split; [by destruct t|].
      assert (match t with
              | TDone => delete i (thread_of <$> workers)
              | _ => <[i:=t]> (thread_of <$> workers)
              end = <[i:=t]> (thread_of <$> workers)) as ->
        by (by destruct t).
      erewrite thread_step_in; [|apply list_lookup_insert_eq;
        by apply lookup_lt_Some in Hw'|exact Hsecond].
      simpl. rewrite Hmap.
      by rewrite list_delete_insert_same, list_insert_insert_eq.
Qed.

(** Every run of a call of [fetch_url] in which the calls read the pages
    they asked for is a run of the threads with the one browser. *)
Theorem runs_are_runs_with_one_browser W proxies domain_restriction
    schedule :
  ∀ f st f' st' (page : option Page),
    run_frame W proxies domain_restriction schedule f st = Some (f', st') →
    ∃ schedule' page',
      run_threads W proxies domain_restriction schedule' (thread_of f)
        (mkShared st page)
      = Some (thread_of f', mkShared st' page').
Proof.
  induction schedule as [|a schedule IH]; intros f st f' st' page; simpl.
  { intros [= <- <-]. by exists [], page. }
  destruct (step W proxies domain_restriction a f st) as [[f1 st1]|]
    eqn:Hstep; [|done].
  intros Hrest.
  destruct (step_is_shared _ _ _ _ _ _ _ _ page Hstep)
    as [page1 [Hone|(t & s & Hfirst & _ & Hsecond)]];
    destruct (IH _ _ _ _ page1 Hrest) as (schedule' & page' & Hrun).
  - exists (a :: schedule'), page'. simpl. by rewrite Hone.
  - exists (a :: a :: schedule'), page'. simpl.
    by rewrite Hfirst, Hsecond.
Qed.

(** ** Depth *)

(** The depth, as long as every call reads the page it asked for: the
    runs of [run_machine], under any schedule and any pool size.  Links
    are counted as the crawler resolves them, against the URL of the page
    or the canonical URL the page names ([links_of]).  In a crawl with
    depth [depth], every call of [driver.get], issued by a call of
    [fetch_url] with depth argument [r ≥ 1], is for a URL that [k] such
    links lead to from a seed, with [k + r = depth], so [k < depth]; every
    row is the page of such a URL; every call of [fetch_url] in progress
    or waiting in a pool, with depth argument [r], is for a URL at
    distance [k] with [k + r = depth].  A call with depth 0 returns
    without touching the state, and the loop of [bfs_crawl] skips an entry
    whose depth is [>= depth]. *)
Theorem crawl_stays_within_depth W urls (depth : Z) domain_restriction
    proxies st schedule m :
  run_machine W urls depth domain_restriction proxies schedule
    (crawl_start urls st) = Some m →
  (∃ gets,
     driver_log (store m) = driver_log st ++ gets
     ∧ ∀ u r, (u, r) ∈ gets →
         ∃ k, k + r = Z.to_nat depth ∧ 1 ≤ r ∧ distance urls k u)
  ∧ (∀ row, row ∈ save_results (store m) →
       ∃ u k,
         k < Z.to_nat depth
         ∧ distance urls k u
         ∧ names driver_get u (row_url row))
  ∧ (∀ cd f u r,
       running m = Some (cd, f) → (u, r) ∈ calls_of f →
       ∃ k, k + r = Z.to_nat depth ∧ distance urls k u)
  ∧ (∀ u st0,
       step W proxies domain_restriction Run (Call u 0) st0 = Some (Done, st0)
       ∧ fetch_url proxies domain_restriction 0 u st0 = st0)
  ∧ (∀ u (cd : Z) queue st0,
       (cd >= depth)%Z →
       mstep W urls depth domain_restriction proxies Next
         (mkMachine ((u, cd) :: queue) None st0)
       = Some (mkMachine queue None st0)
       ∧ ∀ fuel,
           bfs_loop urls depth domain_restriction proxies (S fuel)
             ((u, cd) :: queue) st0
           = bfs_loop urls depth domain_restriction proxies fuel queue st0).
Proof.
  intros Hrun.
  pose proof (run_machine_invariant W urls depth domain_restriction
                proxies _ schedule _ m
                (crawl_invariant_start W urls depth st) Hrun)
    as (_ & Hcall & gets & rows & Hlog & Hrows & Hgets & Hwithin).
  simpl in Hlog, Hrows. split_and!.
  - exists gets. split; [done|]. intros u r Hin.
    rewrite Forall_forall in Hgets.
    destruct (Hgets _ Hin) as (? & ? & ?); simpl in *.
    exists (Z.to_nat depth - r). split_and!; [lia|done|done].
  - intros row Hrow. rewrite Hrows in Hrow.
    rewrite Forall_forall in Hwithin. by apply Hwithin.
  - intros cd f u r Hf Hin. destruct (Hcall cd f Hf) as [_ Hlevel].
    apply at_level_calls in Hlevel. rewrite Forall_forall in Hlevel.
    by apply (Hlevel (u, r)).
  - done.
  - intros u cd queue st0 Hcd. unfold Crawler.mstep; simpl.
    by rewrite (bool_decide_eq_true_2 _ Hcd).
Qed.

(** ** Workers *)

Lemma at_level_workers W seeds d :
  ∀ r f,
    at_level W seeds d r f →
    busy_workers f ≤ worker_bound W r ∧ widest_pool f ≤ W.
Proof.
  induction r as [|r IH]; intros f Hf; inversion Hf; subst; simpl;
    try (split; lia).
  match goal with H : Forall _ workers |- _ => rename H into Hworkers end.
  assert (Forall (λ w, S (busy_workers w) ≤ S (worker_bound W r)) workers)
    as Hbusy.
  { eapply Forall_impl; [exact Hworkers|].
    intros w [_ Hw%IH]. simpl in Hw. lia. }
  apply total_le in Hbusy.
  assert (length workers * S (worker_bound W r) ≤ W * S (worker_bound W r))
    by (by apply Nat.mul_le_mono_r).
  split; [lia|].
  apply Nat.max_lub; [done|].
  assert (Forall (λ w, widest_pool w ≤ W) workers) as Hwide.
  { eapply Forall_impl; [exact Hworkers|]. by intros w [_ [_ ?]%IH]. }
  clear -Hwide. induction Hwide as [|w workers Hw _ IHw]; simpl; [lia|].
  by apply Nat.max_lub.
Qed.

(** C9, as the code has it.  Every call of [fetch_url] that gets through
    [process_page] opens a pool of its own, and so do the calls its
    workers run: the pools nest along the recursion.  At every point of a
    crawl with depth [depth] and pools of [W] workers, no pool has more
    than [W] busy workers, and the busy workers of all the open pools
    together are at most [W + W^2 + ... + W^depth], a bound that grows with
    the depth. *)
Theorem workers_bounded_by_depth W urls (depth : Z) domain_restriction
    proxies st schedule m (cd : Z) f :
  run_machine W urls depth domain_restriction proxies schedule
    (crawl_start urls st) = Some m →
  running m = Some (cd, f) →
  widest_pool f ≤ W
  ∧ busy_workers f ≤ worker_bound W (Z.to_nat depth)
  ∧ ∀ u below st0 st1 links,
      process_page proxies domain_restriction (S below) u st0
      = (st1, Some links) →
      step W proxies domain_restriction Run (Get u below) st0
      = Some (Pool links below [], st1).
Proof.
  intros Hrun Hf.
  pose proof (run_machine_invariant W urls depth domain_restriction
                proxies _ schedule _ m
                (crawl_invariant_start W urls depth st) Hrun)
    as (_ & Hcall & _).
  destruct (Hcall cd f Hf) as [_ Hlevel].
  apply at_level_workers in Hlevel as [? ?]. split_and!; try done.
  intros u below st0 st1 links Hpage. simpl. by rewrite Hpage.
Qed.

(** ** The queue of [bfs_crawl] *)

Lemma bfs_loop_seeds start_urls (depth : Z) domain_restriction proxies fuel :
  ∀ seeds (extras : list (string * Z)) st st',
    Forall (λ entry, entry.1 ∈ visited_urls st) extras →
    bfs_loop start_urls depth domain_restriction proxies fuel
      (map (λ url, (url, 0%Z)) seeds ++ extras) st = Some st' →
    st' = fold_left (crawl_seed depth domain_restriction proxies) seeds st.
Proof.
  induction fuel as [|fuel IH]; intros seeds extras st st' Hextras.
  { destruct seeds, extras as [|[? ?] ?]; simpl; try done.
    by intros [= <-]. }
  destruct seeds as [|u seeds]; simpl.
  - destruct extras as [|[v cd] extras]; simpl; [by intros [= <-]|].
    apply Forall_cons in Hextras as [Hv Hextras]. simpl in Hv.
    rewrite (bool_decide_eq_true_2 _ Hv), orb_true_r.
    apply (IH [] extras st st' Hextras).
  - unfold Crawler.crawl_seed at 2.
    destruct (_ || _) eqn:Hskip; [by apply IH|].
    rewrite Z.sub_0_r, <- app_assoc. apply IH.
    apply Forall_app. split; [|apply links_to_crawl_visited].
    eapply Forall_impl; [exact Hextras|]. intros entry.
    apply (proj1 (fetch_url_extends _ _ _ _ _)).
Qed.

Lemma bfs_crawl_fold start_urls (depth : Z) domain_restriction proxies st :
  returns
    (λ fuel, bfs_crawl fuel start_urls depth domain_restriction proxies st)
    (fold_left (crawl_seed depth domain_restriction proxies) start_urls st).
Proof.
  assert (∀ fuel st',
            bfs_crawl fuel start_urls depth domain_restriction proxies st
            = Some st' →
            st' = fold_left (crawl_seed depth domain_restriction proxies)
                    start_urls st) as Hfold.
  { intros fuel st' Hrun. unfold Crawler.bfs_crawl in Hrun.
    rewrite <- (app_nil_r (map _ start_urls)) in Hrun.
    by apply bfs_loop_seeds in Hrun. }
  split.
  - intros fuel.
    destruct (bfs_crawl fuel start_urls depth domain_restriction proxies st)
      as [st'|] eqn:Hrun; [right|by left].
    by rewrite (Hfold _ _ Hrun).
  - destruct (bfs_loop_returns start_urls depth domain_restriction proxies
                _ (map (λ url, (url, 0%Z)) start_urls) st (le_n _))
      as (fuel & st' & Hrun).
    exists fuel. unfold Crawler.bfs_crawl. rewrite Hrun.
    by rewrite (Hfold fuel st' Hrun).
Qed.

Lemma web_crawler_fold fuel urls (depth : Z) domain_restriction proxies
    st st' :
  web_crawler fuel urls depth domain_restriction proxies st = Some st' →
  st' = fold_left (crawl_seed depth domain_restriction proxies) urls
          (mkState (visited_urls st) [] (driver_log st) (rng st)).
Proof.
  unfold Crawler.web_crawler. intros Hrun.
  destruct (bfs_crawl_fold urls depth domain_restriction proxies
              (mkState (visited_urls st) [] (driver_log st) (rng st)))
    as [Hall _].
  destruct (Hall fuel) as [Hnone|Hsome]; congruence.
Qed.

Lemma crawl_seed_idle (depth : Z) domain_restriction proxies
    (urls : list string) st :
  (depth ≤ 0)%Z ∨ Forall (λ url, url ∈ visited_urls st) urls →
  fold_left (crawl_seed depth domain_restriction proxies) urls st = st.
Proof.
  intros Hidle. induction urls as [|u urls IH]; simpl; [done|].
  assert (crawl_seed depth domain_restriction proxies st u = st) as ->.
  { unfold Crawler.crawl_seed. destruct Hidle as [Hdepth|Hseen].
    - by rewrite bool_decide_eq_true_2 by lia.
    - apply Forall_cons in Hseen as [Hu _].
      by rewrite (bool_decide_eq_true_2 _ Hu), orb_true_r. }
  apply IH. destruct Hidle as [?|Hseen]; [by left|right].
  by apply Forall_cons in Hseen as [_ ?].
Qed.

(** With a depth that is not positive, or with seeds that are all visited
    already, [web_crawler] calls [driver.get] for nothing, leaves the
    visited set as it was, and still writes the output file: whatever
    [crawled_data] held is replaced by a file without any page. *)
Theorem idle_crawl_overwrites_the_output urls (depth : Z) domain_restriction
    proxies file_format st files :
  (depth ≤ 0)%Z ∨ Forall (λ url, url ∈ visited_urls st) urls →
  returns
    (λ fuel, web_crawler_files fuel urls depth domain_restriction proxies
               file_format st files)
    (mkState (visited_urls st) [] (driver_log st) (rng st),
     save_to_file [] file_format "crawled_data" files).
Proof.
  intros Hidle.
  pose proof (bfs_crawl_fold urls depth domain_restriction proxies
                (mkState (visited_urls st) [] (driver_log st) (rng st)))
    as [Hall [fuel Hrun]].
  rewrite crawl_seed_idle in Hall, Hrun by done.
  unfold Crawler.web_crawler_files, Crawler.web_crawler. split.
  - intros fuel'. destruct (Hall fuel') as [->| ->]; auto.
  - exists fuel. by rewrite Hrun.
Qed.

(** ** The loop over the anchors *)

Lemma page_links_app base domain_restriction (visited : gset string)
    (l1 l2 : list Anchor) :
  Crawler.page_links urljoin netloc base domain_restriction visited (l1 ++ l2)
  = Crawler.page_links urljoin netloc base domain_restriction visited l1
    ++ Crawler.page_links urljoin netloc base domain_restriction visited l2.
Proof.
  induction l1 as [|link l1 IH]; simpl; [done|].
  rewrite IH. by repeat case_match.
Qed.

Lemma page_links_iff base domain_restriction (visited : gset string) :
  (∀ found v,
     v ∈ Crawler.page_links urljoin netloc base domain_restriction visited
           found
     ↔ ∃ link,
         link ∈ found
         ∧ urljoin base (href link) = v
         ∧ rel link ≠ Some ["nofollow"]
         ∧ (domain_restriction = true → netloc base = netloc v)
         ∧ startswith v "http" = true
         ∧ v ∉ visited)
  ∧ ∀ l1 l2,
      Crawler.page_links urljoin netloc base domain_restriction visited
        (l1 ++ l2)
      = Crawler.page_links urljoin netloc base domain_restriction visited l1
        ++ Crawler.page_links urljoin netloc base domain_restriction visited
             l2.
Proof.
  split; [|apply page_links_app].
  induction found as [|link found IH]; intros v; simpl.
  { split; [by intros ?%elem_of_nil|].
    by intros (link & ?%elem_of_nil & _). }
  assert ((∃ link0, link0 ∈ found ∧ urljoin base (href link0) = v
             ∧ rel link0 ≠ Some ["nofollow"]
             ∧ (domain_restriction = true → netloc base = netloc v)
             ∧ startswith v "http" = true ∧ v ∉ visited)
          → ∃ link0, link0 ∈ link :: found ∧ urljoin base (href link0) = v
              ∧ rel link0 ≠ Some ["nofollow"]
              ∧ (domain_restriction = true → netloc base = netloc v)
              ∧ startswith v "http" = true ∧ v ∉ visited) as Hweaken.
  { intros (link0 & ? & ?). exists link0. split; [by right|done]. }
  unfold rel_is_nofollow, is_same_domain, extract_domain.
  destruct (bool_decide (rel link = Some ["nofollow"])) eqn:Hrel.
  { apply bool_decide_eq_true in Hrel. rewrite IH. split; [done|].
    intros (link0 & [->|Hin]%elem_of_cons & Hrest); [|by exists link0].
    by destruct Hrest as (_ & ? & _). }
  apply bool_decide_eq_false in Hrel.
  destruct (domain_restriction && _) eqn:Hdom.
  { apply andb_prop in Hdom as [-> Hdom%negb_true_iff%bool_decide_eq_false].
    rewrite IH. split; [done|].
    intros (link0 & [->|Hin]%elem_of_cons & Hrest); [|by exists link0].
    destruct Hrest as (<- & _ & Hsame & _). by destruct Hdom; apply Hsame. }
  assert (domain_restriction = true →
          netloc base = netloc (urljoin base (href link))) as Hsame.
  { intros ->. simpl in Hdom.
    by apply negb_false_iff, bool_decide_eq_true in Hdom. }
  destruct (startswith _ _ && _) eqn:Hhttp.
  - apply andb_prop in Hhttp as [Hhttp Hnew%bool_decide_eq_true].
    rewrite elem_of_cons, IH. split.
    + intros [->|Hrest]; [|by apply Hweaken].
      exists link. split; [by left|done].
    + intros (link0 & [->|Hin]%elem_of_cons & Hrest);
        [left; by destruct Hrest as [<- _]|].
      right. by exists link0.
  - rewrite IH. split; [done|].
    intros (link0 & [->|Hin]%elem_of_cons & Hrest); [|by exists link0].
    destruct Hrest as (<- & _ & _ & Hstarts & Hnew).
    rewrite Hstarts in Hhttp. simpl in Hhttp.
    by apply bool_decide_eq_false in Hhttp.
Qed.

(** ** The URLs that reach the browser *)

Lemma process_page_links_http proxies domain_restriction depth url st st'
    links :
  process_page proxies domain_restriction depth url st = (st', Some links) →
  Forall (λ v, startswith v "http" = true) links.
Proof.
  unfold Crawler.process_page.
  destruct (choose_proxy_rng proxies (rng st)) as (proxy & g & ->).
  destruct (driver_get _ url) as [soup|]; simpl; [|done].
  destruct (canonical_url _ _ soup) as [url'|]; simpl; [|done].
  destruct (extract_content soup) as [content|]; [|done].
  intros [= _ <-]. apply Forall_forall. intros v Hv.
  apply (proj1 (page_links_iff _ _ _)) in Hv.
  by destruct Hv as (_ & _ & _ & _ & _ & ? & _).
Qed.

Lemma fetch_url_gets_checked proxies domain_restriction depth :
  ∀ url st,
    ∃ gets,
      driver_log (fetch_url proxies domain_restriction depth url st)
      = driver_log st ++ gets
      ∧ Forall (λ g, is_spider_trap g.1 = false
                     ∧ (g.1 = url ∨ startswith g.1 "http" = true)) gets.
Proof.
  induction depth as [|below IH]; intros url st; simpl.
  { exists []. by rewrite app_nil_r. }
  destruct (skip_url url st) eqn:Hskip; [exists []; by rewrite app_nil_r|].
  apply skip_url_false in Hskip as [_ Htrap].
  destruct (process_page proxies domain_restriction (S below) url st)
    as [st' result] eqn:Hpage.
  pose proof Hpage as (_ & Hlog & _ & _)%process_page_effects.
  destruct result as [links|];
    [|exists [(url, S below)]; split; [done|apply Forall_singleton; auto]].
  apply process_page_links_http in Hpage.
  assert (∃ gets,
            driver_log
              (fold_left
                 (λ st u, fetch_url proxies domain_restriction below u st)
                 links st')
            = driver_log st' ++ gets
            ∧ Forall (λ g, is_spider_trap g.1 = false
                           ∧ startswith g.1 "http" = true) gets)
    as (gets & Hgets & Hchecked).
  { clear Hlog. revert st'.
    induction Hpage as [|v links Hv _ IHl]; intros st'; simpl.
    { exists []. by rewrite app_nil_r. }
    destruct (IH v st') as (gets1 & Hlog1 & Hok1).
    destruct (IHl (fetch_url proxies domain_restriction below v st'))
      as (gets2 & Hlog2 & Hok2).
    exists (gets1 ++ gets2). rewrite Hlog2, Hlog1, app_assoc.
    split; [done|]. apply Forall_app. split; [|done].
    eapply Forall_impl; [exact Hok1|]. simpl.
    intros g [? [Hg|?]]; split; try done. by rewrite Hg. }
  exists ((url, S below) :: gets). rewrite Hgets, Hlog, <- app_assoc.
  split; [done|]. constructor; [auto|].
  eapply Forall_impl; [exact Hchecked|]. simpl. intros g [? ?]; auto.
Qed.


(** ** Exceptions after the page has loaded *)

(** A page whose description or keywords [meta] tag has no [content]
    attribute makes [extract_content] raise after [visited_urls.add]: the
    URL (or the canonical one) is marked visited, no row is written, no
    link of the page is followed, and every later call for that URL
    returns at once. *)
Theorem page_without_meta_content_is_lost proxies domain_restriction below
    url st soup url' :
  skip_url url st = false →
  driver_get (length (driver_log st)) url = Some soup →
  canonical_url url (visited_urls st) soup = Some url' →
  extract_content soup = None →
  observable (fetch_url proxies domain_restriction (S below) url st)
  = ({[url']} ∪ visited_urls st, save_results st,
     driver_log st ++ [(url, S below)])
  ∧ ∀ depth,
      fetch_url proxies domain_restriction depth url'
        (fetch_url proxies domain_restriction (S below) url st)
      = fetch_url proxies domain_restriction (S below) url st.
Proof.
  intros Hskip Hget Hcan Hmeta.
  assert (∃ g, fetch_url proxies domain_restriction (S below) url st
               = mkState ({[url']} ∪ visited_urls st) (save_results st)
                   (driver_log st ++ [(url, S below)]) g) as [g ->].
  { simpl. rewrite Hskip. unfold Crawler.process_page.
    destruct (choose_proxy_rng proxies (rng st)) as (proxy & g & ->).
    rewrite Hget. simpl. rewrite Hcan, Hmeta. by exists g. }
  split; [done|]. intros [|depth]; simpl; [done|].
  unfold skip_url; simpl.
  rewrite bool_decide_eq_true_2 by set_solver. done.
Qed.

(** A canonical [link] tag without [href] makes the subscript raise before
    [visited_urls.add]: the page has been loaded, but the call leaves
    nothing behind apart from the [driver.get] call. *)
Theorem canonical_link_without_href_drops_the_page proxies domain_restriction
    below url st soup :
  skip_url url st = false →
  driver_get (length (driver_log st)) url = Some soup →
  canonical soup = NoAttr →
  observable (fetch_url proxies domain_restriction (S below) url st)
  = (visited_urls st, save_results st, driver_log st ++ [(url, S below)]).
Proof.
  intros Hskip Hget Hcan. simpl. rewrite Hskip. unfold Crawler.process_page.
  destruct (choose_proxy_rng proxies (rng st)) as (proxy & g & ->).
  rewrite Hget. simpl. unfold canonical_url. by rewrite Hcan.
Qed.

(** ** Canonical links *)

Lemma fetch_url_zero_fold (links : list string) st :
  fold_left (λ st (_ : string), st) links st = st.
Proof. by induction links. Qed.

Lemma fetch_url_once proxies domain_restriction url st soup url' content :
  skip_url url st = false →
  driver_get (length (driver_log st)) url = Some soup →
  canonical_url url (visited_urls st) soup = Some url' →
  extract_content soup = Some content →
  observable (fetch_url proxies domain_restriction 1 url st)
  = ({[url']} ∪ visited_urls st,
     save_results st
     ++ [(url', content_meta_description content,
          content_meta_keywords content, content_images content)],
     driver_log st ++ [(url, 1)]).
Proof.
  intros Hskip Hget Hcan Hmeta. simpl. rewrite Hskip.
  unfold Crawler.process_page.
  destruct (choose_proxy_rng proxies (rng st)) as (proxy & g & ->).
  rewrite Hget. simpl. rewrite Hcan, Hmeta.
  by rewrite fetch_url_zero_fold.
Qed.

Lemma fold_fetch_url_extends proxies domain_restriction below
    (links : list string) :
  ∀ st,
    extends st
      (fold_left (λ st u, fetch_url proxies domain_restriction below u st)
         links st).
Proof.
  induction links as [|u links IH]; intros st; simpl; [apply extends_refl|].
  eapply extends_trans; [apply fetch_url_extends|apply IH].
Qed.

Lemma fold_fetch_url_idle proxies domain_restriction below
    (links : list string) st :
  below = 0 ∨ links = [] →
  fold_left (λ st u, fetch_url proxies domain_restriction below u st)
    links st = st.
Proof.
  intros [-> | ->]; [|done]. simpl. apply fetch_url_zero_fold.
Qed.

Lemma fetch_url_records proxies domain_restriction below url st soup url'
    content :
  skip_url url st = false →
  driver_get (length (driver_log st)) url = Some soup →
  canonical_url url (visited_urls st) soup = Some url' →
  extract_content soup = Some content →
  (url' ∈ visited_urls (fetch_url proxies domain_restriction (S below) url st)
   ∧ ∃ gets rows,
       driver_log (fetch_url proxies domain_restriction (S below) url st)
       = driver_log st ++ (url, S below) :: gets
       ∧ save_results (fetch_url proxies domain_restriction (S below) url st)
         = save_results st
           ++ (url', content_meta_description content,
               content_meta_keywords content, content_images content)
              :: rows)
  ∧ (below = 0 ∨ anchors soup = [] →
     observable (fetch_url proxies domain_restriction (S below) url st)
     = ({[url']} ∪ visited_urls st,
        save_results st
        ++ [(url', content_meta_description content,
             content_meta_keywords content, content_images content)],
        driver_log st ++ [(url, S below)])).
Proof.
  intros Hskip Hget Hcan Hmeta. simpl. rewrite Hskip.
  unfold Crawler.process_page.
  destruct (choose_proxy_rng proxies (rng st)) as (proxy & g & ->).
  rewrite Hget. simpl. rewrite Hcan, Hmeta. split.
  - match goal with
    | |- context [fold_left ?step ?links ?st0] =>
        destruct (fold_fetch_url_extends proxies domain_restriction below
                    links st0)
          as (Hvs & gets & rows & Hlog & Hrows & _)
    end.
    simpl in *. split; [apply Hvs; set_solver|].
    exists gets, rows. by rewrite Hlog, Hrows, <- !app_assoc.
  - intros Hidle. rewrite fold_fetch_url_idle; [done|].
    destruct Hidle as [?|Hnone]; [by left|right]. by rewrite Hnone.
Qed.

(** A page that names a canonical URL [h] other than its own, fetched by a
    call with any depth while neither URL is visited: the call loads the
    page, records it under [h] and marks [h] visited, not the page's URL.
    As long as the page's URL stays unvisited, which it does when that call
    follows no link (depth 1, or a page without anchors), the next call
    for the page's URL, with any depth, loads the page again, finds [h]
    visited and records the page a second time under its own URL.  When
    no link is followed the two calls leave exactly two calls of
    [driver.get] and two rows for the one page. *)
Theorem canonical_page_is_recorded_twice proxies domain_restriction below
    url st soup h content :
  (∀ n, driver_get n url = Some soup) →
  canonical soup = Value h →
  h ≠ url →
  url ∉ visited_urls st →
  h ∉ visited_urls st →
  is_spider_trap url = false →
  extract_content soup = Some content →
  (h ∈ visited_urls (fetch_url proxies domain_restriction (S below) url st)
   ∧ ∃ gets rows,
       driver_log (fetch_url proxies domain_restriction (S below) url st)
       = driver_log st ++ (url, S below) :: gets
       ∧ save_results (fetch_url proxies domain_restriction (S below) url st)
         = save_results st
           ++ (h, content_meta_description content,
               content_meta_keywords content, content_images content)
              :: rows)
  ∧ (url ∉ visited_urls
             (fetch_url proxies domain_restriction (S below) url st) →
     ∀ below',
       url ∈ visited_urls
               (fetch_url proxies domain_restriction (S below') url
                  (fetch_url proxies domain_restriction (S below) url st))
       ∧ ∃ gets rows,
           driver_log
             (fetch_url proxies domain_restriction (S below') url
                (fetch_url proxies domain_restriction (S below) url st))
           = driver_log
               (fetch_url proxies domain_restriction (S below) url st)
             ++ (url, S below') :: gets
           ∧ save_results
               (fetch_url proxies domain_restriction (S below') url
                  (fetch_url proxies domain_restriction (S below) url st))
             = save_results
                 (fetch_url proxies domain_restriction (S below) url st)
               ++ (url, content_meta_description content,
                   content_meta_keywords content, content_images content)
                  :: rows)
  ∧ (below = 0 ∨ anchors soup = [] →
     (url ∉ visited_urls
              (fetch_url proxies domain_restriction (S below) url st))
     ∧ observable
         (fetch_url proxies domain_restriction (S below) url
            (fetch_url proxies domain_restriction (S below) url st))
       = ({[url]} ∪ ({[h]} ∪ visited_urls st),
          save_results st
          ++ [(h, content_meta_description content,
               content_meta_keywords content, content_images content);
              (url, content_meta_description content,
               content_meta_keywords content, content_images content)],
          driver_log st ++ [(url, S below); (url, S below)])).
Proof.
  intros Hget Hcan Hne Hurl Hh Htrap Hmeta.
  assert (skip_url url st = false) as Hskip
    by (unfold skip_url; by rewrite bool_decide_eq_false_2, Htrap).
  assert (canonical_url url (visited_urls st) soup = Some h) as Hcanon
    by (unfold canonical_url; by rewrite Hcan, bool_decide_eq_true_2).
  destruct (fetch_url_records proxies domain_restriction below url st soup h
              content Hskip (Hget _) Hcanon Hmeta) as [[Hseen Hfirst] Hidle].
  set (st1 := fetch_url proxies domain_restriction (S below) url st) in *.
  assert (url ∉ visited_urls st1 →
          ∀ below',
            skip_url url st1 = false
            ∧ canonical_url url (visited_urls st1) soup = Some url) as Hagain.
  { intros Hnot below'. split.
    - unfold skip_url. by rewrite bool_decide_eq_false_2, Htrap.
    - unfold canonical_url. rewrite Hcan, bool_decide_eq_false_2; [done|].
      by intros Hnot'. }
  split_and!; [done|done| |].
  - intros Hnot below'. destruct (Hagain Hnot below') as [Hskip1 Hcanon1].
    apply (fetch_url_records proxies domain_restriction below' url st1 soup
             url content Hskip1 (Hget _) Hcanon1 Hmeta).
  - intros Hnone. specialize (Hidle Hnone). unfold observable in Hidle.
    assert (visited_urls st1 = {[h]} ∪ visited_urls st) as Hvs by congruence.
    assert (save_results st1
            = save_results st
              ++ [(h, content_meta_description content,
                   content_meta_keywords content, content_images content)])
      as Hrows by congruence.
    assert (driver_log st1 = driver_log st ++ [(url, S below)]) as Hlog
      by congruence.
    assert (url ∉ visited_urls st1) as Hnot.
    { rewrite Hvs, elem_of_union, elem_of_singleton.
      intros [?|?]; [by apply Hne|done]. }
    split; [done|]. destruct (Hagain Hnot below) as [Hskip1 Hcanon1].
    rewrite (proj2 (fetch_url_records proxies domain_restriction below url
                      st1 soup url content Hskip1 (Hget _) Hcanon1 Hmeta)
               Hnone).
    by rewrite Hvs, Hrows, Hlog, <- !app_assoc.
Qed.

(** ** How many pages a crawl can fetch *)

Lemma fetch_url_log_bound B proxies domain_restriction depth :
  (∀ n u soup, driver_get n u = Some soup → length (anchors soup) ≤ B) →
  ∀ url st,
    length (driver_log (fetch_url proxies domain_restriction depth url st))
    ≤ length (driver_log st) + fetch_bound B depth.
Proof.
  intros Hfinite. induction depth as [|below IH]; intros url st; simpl;
    [lia|].
  destruct (skip_url url st); [lia|].
  destruct (process_page proxies domain_restriction (S below) url st)
    as [st' result] eqn:Hpage.
  apply process_page_effects in Hpage as (_ & Hlog & _ & Hlinks).
  assert (length (driver_log st') = S (length (driver_log st))) as Hone
    by (rewrite Hlog, length_app; simpl; lia).
  destruct result as [links|]; [|lia].
  destruct (Hlinks links eq_refl) as (soup & Hget%Hfinite & Hlen & _).
  assert (length
            (driver_log
               (fold_left
                  (λ st u, fetch_url proxies domain_restriction below u st)
                  links st'))
          ≤ length (driver_log st') + length links * fetch_bound B below)
    as Hfold.
  { clear Hlog Hlinks Hlen Hone. revert st'.
    induction links as [|v links IHl]; intros st'; simpl; [lia|].
    specialize (IHl (fetch_url proxies domain_restriction below v st')).
    specialize (IH v st'). lia. }
  assert (length links * fetch_bound B below ≤ B * fetch_bound B below)
    by (apply Nat.mul_le_mono_r; lia).
  lia.
Qed.

(** On a web whose pages have at most [B] anchors, a call of [fetch_url]
    with depth [depth] makes at most [1 + B + ... + B^(depth-1)] calls of
    [driver.get], and [web_crawler] at most that many for each seed. *)
Theorem crawl_fetches_are_bounded B fuel urls (depth : Z) domain_restriction
    proxies st st' :
  (∀ n u soup, driver_get n u = Some soup → length (anchors soup) ≤ B) →
  web_crawler fuel urls depth domain_restriction proxies st = Some st' →
  length (driver_log st')
  ≤ length (driver_log st) + length urls * fetch_bound B (Z.to_nat depth).
Proof.
  intros Hfinite ->%web_crawler_fold.
  change (length (driver_log st))
    with (length (driver_log
                    (mkState (visited_urls st) [] (driver_log st) (rng st)))).
  generalize (mkState (visited_urls st) [] (driver_log st) (rng st)).
  clear st. induction urls as [|u urls IH]; intros st; simpl; [lia|].
  specialize (IH (crawl_seed depth domain_restriction proxies st u)).
  assert (length (driver_log
                    (crawl_seed depth domain_restriction proxies st u))
          ≤ length (driver_log st) + fetch_bound B (Z.to_nat depth)).
  { unfold Crawler.crawl_seed. destruct (_ || _); [lia|].
    by apply fetch_url_log_bound. }
  lia.
Qed.

(** ** Under every schedule *)

Lemma process_page_one_row proxies domain_restriction depth url st st'
    (result : option (list string)) :
  process_page proxies domain_restriction depth url st = (st', result) →
  save_results st' = save_results st
  ∨ ∃ row, save_results st' = save_results st ++ [row]
           ∧ row_url row ∈ visited_urls st'.
Proof.
  unfold Crawler.process_page.
  destruct (choose_proxy_rng proxies (rng st)) as (proxy & g & ->).
  destruct (driver_get _ url) as [soup|]; simpl; [|intros [= <- _]; auto].
  destruct (canonical_url _ _ soup) as [url'|]; simpl;
    [|intros [= <- _]; auto].
  destruct (extract_content soup) as [content|]; intros [= <- _]; simpl;
    [|auto].
  right. eexists. split; [done|]. unfold row_url; simpl. set_solver.
Qed.

Lemma mstep_store W start_urls (depth : Z) domain_restriction proxies
    (a : MAction) m m' :
  mstep W start_urls depth domain_restriction proxies a m = Some m' →
  store m' = store m
  ∨ ∃ u r result,
      process_page proxies domain_restriction r u (store m)
      = (store m', result).
Proof.
  destruct m as [queue running st]. unfold Crawler.mstep; simpl.
  destruct a as [|a], running as [[cd f]|]; try done.
  - destruct f; try done. intros [= <-]. by left.
  - destruct queue as [|[u cd] queue]; [done|].
    destruct (_ || _); intros [= <-]; by left.
  - destruct (step W proxies domain_restriction a f st) as [[f' st']|] eqn:Hf;
      [|done].
    intros [= <-]. simpl. by apply step_store in Hf.
Qed.

(** Whatever the schedule and the pool size, the shared state only grows
    from any point of a crawl to any later point: the visited set keeps
    its elements, the calls of [driver.get] and the rows are appended to
    and what was there stays in place, every call of [driver.get] in
    between adds at most one row, the URL of every row added is in the
    visited set, and so is the URL of every row when that was so at the
    earlier point, as it is when [web_crawler] starts. *)
Theorem shared_state_only_grows W urls (depth : Z) domain_restriction
    proxies schedule m0 m :
  run_machine W urls depth domain_restriction proxies schedule m0 = Some m →
  visited_urls (store m0) ⊆ visited_urls (store m)
  ∧ (∃ gets rows,
       driver_log (store m) = driver_log (store m0) ++ gets
       ∧ save_results (store m) = save_results (store m0) ++ rows
       ∧ length rows ≤ length gets
       ∧ Forall (λ row, row_url row ∈ visited_urls (store m)) rows)
  ∧ (Forall (λ row, row_url row ∈ visited_urls (store m0))
       (save_results (store m0)) →
     Forall (λ row, row_url row ∈ visited_urls (store m))
       (save_results (store m))).
Proof.
  assert (∀ schedule m0 m,
            run_machine W urls depth domain_restriction proxies schedule m0
            = Some m →
            visited_urls (store m0) ⊆ visited_urls (store m)
            ∧ ∃ gets rows,
                driver_log (store m) = driver_log (store m0) ++ gets
                ∧ save_results (store m) = save_results (store m0) ++ rows
                ∧ length rows ≤ length gets
                ∧ Forall (λ row, row_url row ∈ visited_urls (store m)) rows)
    as Hgrow.
  { clear schedule m0 m. induction schedule as [|a schedule IH];
      intros m0 m; simpl.
    { intros [= <-]. split; [done|]. exists [], [].
      by rewrite !app_nil_r. }
    destruct (mstep W urls depth domain_restriction proxies a m0)
      as [m1|] eqn:Hstep; [|done].
    intros (Hvs & gets & rows & Hlog & Hrows & Hlen & Hseen)%IH.
    apply mstep_store in Hstep as [Heq|(u & r & result & Hpage)].
    { rewrite Heq in *. split; [done|]. by exists gets, rows. }
    pose proof Hpage as (Hvs1 & Hlog1 & _ & _)%process_page_effects.
    split; [by transitivity (visited_urls (store m1))|].
    apply process_page_one_row in Hpage as [Hsame|(row & Hrow & Hin)].
    - exists ((u, r) :: gets), rows.
      rewrite Hlog, Hlog1, Hrows, Hsame, <- app_assoc.
      split_and!; try done. simpl. lia.
    - exists ((u, r) :: gets), (row :: rows).
      rewrite Hlog, Hlog1, Hrows, Hrow, <- !app_assoc.
      split_and!; try done; [simpl; lia|].
      constructor; [by apply Hvs|done]. }
  intros (Hvs & gets & rows & Hlog & Hrows & Hlen & Hseen)%Hgrow.
  split_and!; [done|by exists gets, rows|].
  intros Hbefore. rewrite Hrows. apply Forall_app. split; [|done].
  eapply Forall_impl; [exact Hbefore|]. intros row. apply Hvs.
Qed.

End Facts.

(** * When the URL functions raise *)

Section Raising.

Context {Rng : Type}.
Variable urljoin : string → string → string.
Variable netloc : string → string.
Variable driver_get : nat → string → option Page.
Variable random_choice : Rng → list string → string * Rng.
Variable urljoin_raises : string → string → bool.
Variable urlparse_raises : string → bool.

Local Abbreviation fetch_url :=
  (fetch_url urljoin netloc driver_get random_choice).
Local Abbreviation bfs_crawl :=
  (bfs_crawl urljoin netloc driver_get random_choice).
Local Abbreviation crawl_seed :=
  (crawl_seed urljoin netloc driver_get random_choice).
Local Abbreviation page_links := (page_links urljoin netloc).
Local Abbreviation anchor_loop :=
  (anchor_loop urljoin netloc urljoin_raises urlparse_raises).
Local Abbreviation link_raises :=
  (link_raises urljoin urljoin_raises urlparse_raises).
Local Abbreviation followed := (followed urljoin netloc).
Local Abbreviation line_149_raises := (line_149_raises urlparse_raises).
Local Abbreviation process_page :=
  (process_page urljoin netloc driver_get random_choice).
Local Abbreviation process_page_checked :=
  (process_page_checked urljoin netloc driver_get random_choice
     urljoin_raises urlparse_raises).
Local Abbreviation fetch_url_checked :=
  (fetch_url_checked urljoin netloc driver_get random_choice
     urljoin_raises urlparse_raises).
Local Abbreviation crawl_seed_checked :=
  (crawl_seed_checked urljoin netloc driver_get random_choice
     urljoin_raises urlparse_raises).
Local Abbreviation bfs_loop_checked :=
  (bfs_loop_checked urljoin netloc driver_get random_choice urljoin_raises
     urlparse_raises).
Local Abbreviation bfs_crawl_checked :=
  (bfs_crawl_checked urljoin netloc driver_get random_choice urljoin_raises
     urlparse_raises).
Local Abbreviation seed_pass :=
  (seed_pass urljoin netloc driver_get random_choice urljoin_raises
     urlparse_raises).
Local Abbreviation main_checked :=
  (main_checked urljoin netloc driver_get random_choice urljoin_raises
     urlparse_raises).
Local Abbreviation State := (State Rng).

Implicit Types (st : State) (url : string)
  (proxies : option (list string)) (domain_restriction : bool).

(** ** The loop over the anchors, exactly *)

Lemma page_links_filter url domain_restriction (visited : gset string)
    (found : list Anchor) :
  page_links url domain_restriction visited found
  = (λ link, urljoin url (href link))
      <$> filter (followed url domain_restriction visited) found.
Proof.
  induction found as [|link found IH]; [done|].
  simpl. rewrite IH, filter_cons. clear IH.
  unfold rel_is_nofollow, is_same_domain, extract_domain.
  destruct (decide (followed url domain_restriction visited link))
    as [(Hrel & Hdom & Hhttp & Hnew)|Hnot].
  - rewrite (bool_decide_eq_false_2 _ Hrel), Hhttp,
      (bool_decide_eq_true_2 _ Hnew).
    destruct domain_restriction; simpl; [|done].
    by rewrite (bool_decide_eq_true_2 _ (Hdom eq_refl)).
  - destruct (bool_decide (rel link = Some ["nofollow"])) eqn:Hrel; [done|].
    destruct (domain_restriction && _) eqn:Hdom; [done|].
    destruct (startswith _ _ && _) eqn:Hhttp; [|done].
    destruct Hnot. apply bool_decide_eq_false in Hrel.
    apply andb_prop in Hhttp as [Hhttp Hnew%bool_decide_eq_true].
    split_and!; try done.
    intros ->. simpl in Hdom.
    by apply negb_false_iff, bool_decide_eq_true in Hdom.
Qed.

Lemma if_Exists_tail {A B} (P : A → Prop) `{!∀ x, Decision (P x)} (x : A)
    (l : list A) (a b : B) :
  ¬ P x →
  (if decide (Exists P (x :: l)) then a else b)
  = (if decide (Exists P l) then a else b).
Proof.
  intros Hx. destruct (decide (Exists P (x :: l))) as [Hex|Hex];
    destruct (decide (Exists P l)) as [Hex'|Hex']; try done.
  - by apply Exists_cons in Hex as [?|?].
  - destruct Hex. by apply Exists_cons_tl.
Qed.

Lemma anchor_loop_page_links url domain_restriction (visited : gset string)
    (found : list Anchor) :
  anchor_loop url domain_restriction visited found
  = if decide (Exists (link_raises url domain_restriction) found) then None
    else Some (page_links url domain_restriction visited found).
Proof.
  induction found as [|link found IH].
  { done. }
  cbn [Crawler.anchor_loop Crawler.page_links]. rewrite IH. clear IH.
  destruct (urljoin_raises url (href link)) eqn:Hjoin.
  { rewrite decide_True; [done|]. apply Exists_cons_hd. by left. }
  unfold rel_is_nofollow.
  destruct (bool_decide (rel link = Some ["nofollow"])) eqn:Hrel.
  { apply bool_decide_eq_true in Hrel. rewrite if_Exists_tail; [done|].
    intros [?|(? & _)]; congruence. }
  apply bool_decide_eq_false in Hrel.
  destruct (domain_restriction && (_ || _)) eqn:Hparse.
  { apply andb_prop in Hparse as [-> Hparse%orb_prop].
    rewrite decide_True; [done|]. apply Exists_cons_hd. right.
    by split_and!. }
  assert (¬ link_raises url domain_restriction link) as Hfine.
  { intros [?|(_ & -> & Hraise)]; [congruence|]. simpl in Hparse.
    apply orb_false_elim in Hparse as [? ?].
    destruct Hraise; congruence. }
  rewrite if_Exists_tail by done.
  destruct (domain_restriction && negb _); [done|].
  destruct (startswith _ _ && _); [|done].
  by destruct (decide (Exists _ found)).
Qed.

(** ** [fetch_url] with the exceptions *)

Lemma process_page_checked_visited proxies domain_restriction depth url st :
  visited_urls st
  ⊆ visited_urls
      (process_page_checked proxies domain_restriction depth url st).1.
Proof.
  unfold Crawler.process_page_checked.
  destruct (choose_proxy random_choice proxies (rng st)) as [proxy g].
  destruct (driver_get _ url) as [soup|]; simpl; [|done].
  destruct (canonical_url _ _ soup) as [url'|]; simpl; [|done].
  destruct (extract_content soup) as [content|]; simpl; set_solver.
Qed.

Lemma fetch_url_checked_visited proxies domain_restriction depth :
  ∀ url st,
    visited_urls st
    ⊆ visited_urls (fetch_url_checked proxies domain_restriction depth url st).
Proof.
  induction depth as [|below IH]; intros url st; simpl; [done|].
  destruct (skip_url url st); [done|].
  pose proof (process_page_checked_visited proxies domain_restriction
                (S below) url st) as Hpage.
  destruct (process_page_checked proxies domain_restriction (S below) url st)
    as [st' [links|]]; simpl in Hpage; [|done].
  revert st' Hpage. induction links as [|u links IHl]; intros st' Hst';
    simpl; [done|].
  apply IHl. etransitivity; [exact Hst'|apply IH].
Qed.

Lemma process_page_checked_total proxies domain_restriction depth url st :
  (∀ base href, urljoin_raises base href = false) →
  (∀ u, urlparse_raises u = false) →
  process_page_checked proxies domain_restriction depth url st
  = process_page proxies domain_restriction depth url st.
Proof.
  intros Hjoin Hparse.
  unfold Crawler.process_page_checked, Crawler.process_page.
  destruct (choose_proxy random_choice proxies (rng st)) as [proxy g].
  destruct (driver_get _ url) as [soup|]; [|done].
  destruct (canonical_url _ _ soup) as [url'|]; [|done].
  destruct (extract_content soup) as [content|]; [|done].
  f_equal. rewrite anchor_loop_page_links.
  rewrite decide_False; [done|].
  intros (link & _ & Hraise)%Exists_exists.
  destruct Hraise as [Hraise|(_ & _ & [Hraise|Hraise])];
    by rewrite ?Hjoin, ?Hparse in Hraise.
Qed.

Lemma fetch_url_checked_total proxies domain_restriction depth :
  (∀ base href, urljoin_raises base href = false) →
  (∀ u, urlparse_raises u = false) →
  ∀ url st,
    fetch_url_checked proxies domain_restriction depth url st
    = fetch_url proxies domain_restriction depth url st.
Proof.
  intros Hjoin Hparse. induction depth as [|below IH]; intros url st; simpl;
    [done|].
  destruct (skip_url url st); [done|].
  rewrite process_page_checked_total by done.
  destruct (process_page proxies domain_restriction (S below) url st)
    as [st' [links|]]; [|done].
  revert st'. induction links as [|u links IHl]; intros st'; simpl; [done|].
  by rewrite IH, IHl.
Qed.

(** The loop over the anchors (lines 111 to 126) ends in one of two ways.
    If some anchor makes [urljoin] raise, or makes [urlparse] raise under
    [is_same_domain] (the anchor is not [nofollow], domain restriction is
    on), the loop raises: the call of [fetch_url] ends with the page
    loaded, marked visited and recorded, and follows no link.  Otherwise
    [links] is exactly the list of the resolved targets of the anchors
    that are followed, in the order of the page and with every repetition
    kept: the anchors whose [rel] is not the one-token list [nofollow],
    whose host is the one of the page's URL when domain restriction is on,
    and whose resolved URL starts with [http] and is not visited.  Where
    nothing raises this is the list [page_links] of the embedding
    [fetch_url]. *)
Theorem anchor_loop_follows_in_order url domain_restriction
    (visited : gset string) (found : list Anchor) :
  anchor_loop url domain_restriction visited found
  = (if decide (Exists (link_raises url domain_restriction) found) then None
     else Some ((λ link, urljoin url (href link))
                  <$> filter (followed url domain_restriction visited) found))
  ∧ page_links url domain_restriction visited found
    = (λ link, urljoin url (href link))
        <$> filter (followed url domain_restriction visited) found
  ∧ ∀ proxies below from st soup content,
      skip_url from st = false →
      driver_get (length (driver_log st)) from = Some soup →
      canonical_url from (visited_urls st) soup = Some url →
      extract_content soup = Some content →
      Exists (link_raises url domain_restriction) (anchors soup) →
      observable
        (fetch_url_checked proxies domain_restriction (S below) from st)
      = ({[url]} ∪ visited_urls st,
         save_results st
         ++ [(url, content_meta_description content,
              content_meta_keywords content, content_images content)],
         driver_log st ++ [(from, S below)]).
Proof.
  split_and!; [|apply page_links_filter|].
  - by rewrite anchor_loop_page_links, page_links_filter.
  - intros proxies below from st soup content Hskip Hget Hcan Hmeta Hraise.
    simpl. rewrite Hskip. unfold Crawler.process_page_checked.
    destruct (choose_proxy random_choice proxies (rng st)) as [proxy g].
    rewrite Hget. simpl. rewrite Hcan, Hmeta, anchor_loop_page_links.
    by rewrite decide_True.
Qed.

Lemma process_page_checked_state proxies domain_restriction depth url st :
  (process_page_checked proxies domain_restriction depth url st).1
  = (process_page proxies domain_restriction depth url st).1.
Proof.
  unfold Crawler.process_page_checked, Crawler.process_page.
  destruct (choose_proxy random_choice proxies (rng st)) as [proxy g].
  destruct (driver_get _ url) as [soup|]; [|done].
  destruct (canonical_url _ _ soup) as [url'|]; [|done].
  by destruct (extract_content soup) as [content|].
Qed.

Lemma fetch_url_checked_extends proxies domain_restriction depth :
  ∀ url st,
    extends st (fetch_url_checked proxies domain_restriction depth url st).
Proof.
  induction depth as [|below IH]; intros url st; simpl;
    [apply extends_refl|].
  destruct (skip_url url st) eqn:Hskip; [apply extends_refl|].
  apply skip_url_false in Hskip as [Hurl _].
  pose proof (process_page_checked_state proxies domain_restriction
                (S below) url st) as Hstate.
  destruct (process_page proxies domain_restriction (S below) url st)
    as [st0 result] eqn:Hpage.
  apply process_page_extends in Hpage; [|done].
  destruct (process_page_checked proxies domain_restriction (S below) url st)
    as [st' [links|]]; simpl in Hstate; subst st0; [|done].
  revert st' Hpage. induction links as [|u links IHl]; intros st' Hst';
    simpl; [done|].
  apply IHl. eapply (extends_trans urljoin netloc); [exact Hst'|apply IH].
Qed.

(** ** The queue of [bfs_crawl], with line 149 raising *)

Lemma bfs_loop_checked_extends start_urls (depth : Z) domain_restriction
    proxies fuel :
  ∀ queue st (outcome : Outcome Rng),
    bfs_loop_checked start_urls depth domain_restriction proxies fuel queue st
    = Some outcome →
    extends st match outcome with Returned st' | Raised st' => st' end.
Proof.
  induction fuel as [|fuel IH]; intros [|[url cd] queue] st outcome; simpl;
    try done; try (intros [= <-]; apply extends_refl).
  destruct (_ || _); [by apply IH|].
  destruct (line_149_raises start_urls _).
  - intros [= <-]. apply fetch_url_checked_extends.
  - intros Hrest%IH. eapply (extends_trans urljoin netloc); [|exact Hrest].
    apply fetch_url_checked_extends.
Qed.

Lemma bfs_loop_checked_pass start_urls (depth : Z) domain_restriction
    proxies fuel :
  ∀ seeds (extras : list (string * Z)) st (outcome : Outcome Rng),
    Forall (λ entry, entry.1 ∈ visited_urls st) extras →
    bfs_loop_checked start_urls depth domain_restriction proxies fuel
      (map (λ url, (url, 0%Z)) seeds ++ extras) st = Some outcome →
    outcome
    = seed_pass start_urls depth domain_restriction proxies seeds st.
Proof.
  induction fuel as [|fuel IH]; intros seeds extras st outcome Hextras.
  { destruct seeds, extras as [|[? ?] ?]; simpl; try done.
    by intros [= <-]. }
  destruct seeds as [|u seeds]; simpl.
  - destruct extras as [|[v cd] extras]; simpl; [by intros [= <-]|].
    apply Forall_cons in Hextras as [Hv Hextras]. simpl in Hv.
    rewrite (bool_decide_eq_true_2 _ Hv), orb_true_r.
    apply (IH [] extras st outcome Hextras).
  - destruct (_ || _) eqn:Hskip; [by apply IH|].
    rewrite Z.sub_0_r.
    destruct (line_149_raises start_urls _); [by intros [= <-]|].
    rewrite <- app_assoc. apply IH.
    apply Forall_app. split; [|apply links_to_crawl_visited].
    eapply Forall_impl; [exact Hextras|]. intros entry.
    apply fetch_url_checked_visited.
Qed.

Lemma bfs_loop_checked_returns start_urls (depth : Z) domain_restriction
    proxies :
  ∀ seeds (extras : list (string * Z)) st,
    Forall (λ entry, entry.1 ∈ visited_urls st) extras →
    ∃ fuel,
      bfs_loop_checked start_urls depth domain_restriction proxies fuel
        (map (λ url, (url, 0%Z)) seeds ++ extras) st
      = Some (seed_pass start_urls depth domain_restriction proxies seeds st).
Proof.
  induction seeds as [|u seeds IH]; intros extras st Hextras.
  - exists (length extras). simpl.
    induction Hextras as [|[v cd] extras Hv _ IHe]; simpl; [done|].
    simpl in Hv. by rewrite (bool_decide_eq_true_2 _ Hv), orb_true_r.
  - simpl. destruct (_ || _) eqn:Hskip.
    + destruct (IH extras st Hextras) as [fuel Hrun].
      exists (S fuel). simpl. by rewrite Hskip.
    + destruct (line_149_raises start_urls
                  (fetch_url_checked proxies domain_restriction
                     (Z.to_nat depth) u st)) eqn:Hraise.
      * exists 1. simpl. by rewrite Hskip, Z.sub_0_r, Hraise.
      * destruct (IH (extras
                      ++ links_to_crawl netloc start_urls
                           (fetch_url_checked proxies domain_restriction
                              (Z.to_nat depth) u st) 0)
                    (fetch_url_checked proxies domain_restriction
                       (Z.to_nat depth) u st)) as [fuel Hrun].
        { apply Forall_app. split; [|apply links_to_crawl_visited].
          eapply Forall_impl; [exact Hextras|]. intros entry.
          apply fetch_url_checked_visited. }
        exists (S fuel). simpl.
        by rewrite Hskip, Z.sub_0_r, Hraise, <- app_assoc.
Qed.

Lemma seed_pass_prefix start_urls (depth : Z) domain_restriction proxies :
  ∀ seeds st,
    match seed_pass start_urls depth domain_restriction proxies seeds st with
    | Returned st' =>
        st' = fold_left (crawl_seed_checked depth domain_restriction proxies)
                seeds st
    | Raised st' =>
        ∃ k,
          k < length seeds
          ∧ st' = fold_left
                    (crawl_seed_checked depth domain_restriction proxies)
                    (take (S k) seeds) st
          ∧ line_149_raises start_urls st' = true
    end.
Proof.
  induction seeds as [|u seeds IH]; intros st; [done|].
  cbn [Crawler.seed_pass fold_left length].
  assert (crawl_seed_checked depth domain_restriction proxies st u
          = if bool_decide (0 >= depth)%Z || bool_decide (u ∈ visited_urls st)
            then st
            else fetch_url_checked proxies domain_restriction
                   (Z.to_nat depth) u st)
    as Hseed by done.
  destruct (bool_decide (0 >= depth)%Z || bool_decide (u ∈ visited_urls st)).
  - rewrite Hseed. specialize (IH st).
    destruct (seed_pass _ _ _ _ seeds st) as [st'|st']; [done|].
    destruct IH as (k & Hk & Hst & Hraise).
    exists (S k). split_and!; [lia| |done].
    cbn [take fold_left]. by rewrite Hseed.
  - rewrite Hseed.
    destruct (line_149_raises start_urls _) eqn:Hraise.
    + exists 0. split_and!; [lia| |done].
      cbn [take fold_left]. by rewrite take_0, Hseed.
    + specialize (IH (fetch_url_checked proxies domain_restriction
                        (Z.to_nat depth) u st)).
      destruct (seed_pass _ _ _ _ seeds _) as [st'|st']; [done|].
      destruct IH as (k & Hk & Hst & Hraise').
      exists (S k). split_and!; [lia| |done].
      cbn [take fold_left]. by rewrite Hseed.
Qed.

Lemma crawl_seed_checked_total (depth : Z) domain_restriction proxies
    (seeds : list string) :
  (∀ base href, urljoin_raises base href = false) →
  (∀ u, urlparse_raises u = false) →
  ∀ st,
    fold_left (crawl_seed_checked depth domain_restriction proxies) seeds st
    = fold_left (crawl_seed depth domain_restriction proxies) seeds st.
Proof.
  intros Hjoin Hparse. induction seeds as [|u seeds IH]; intros st; simpl;
    [done|].
  rewrite IH. f_equal.
  unfold Crawler.crawl_seed_checked, Crawler.crawl_seed.
  by rewrite fetch_url_checked_total.
Qed.

(** [bfs_crawl] never calls [fetch_url] for an entry it has appended to
    its queue: those are visited URLs and are all skipped.  The loop is one
    pass over the seeds in order, with one call of [fetch_url] with the
    whole depth for each seed that is not visited by then (none when the
    depth is not positive).  The pass goes through all the seeds and
    [bfs_crawl] returns, unless after the call for some seed line 149
    finds [urlparse] raising on [start_urls[0]] or on a visited URL: then
    [bfs_crawl] raises there, and the seeds after that one are not
    crawled.  Where [urljoin] and [urlparse] never raise, this is the loop
    of the embedding [bfs_crawl]. *)
Theorem bfs_crawl_passes_over_the_seeds start_urls (depth : Z)
    domain_restriction proxies st :
  returns
    (λ fuel, bfs_crawl_checked fuel start_urls depth domain_restriction
               proxies st)
    (seed_pass start_urls depth domain_restriction proxies start_urls st)
  ∧ match seed_pass start_urls depth domain_restriction proxies start_urls
            st with
    | Returned st' =>
        st' = fold_left (crawl_seed_checked depth domain_restriction proxies)
                start_urls st
    | Raised st' =>
        ∃ k,
          k < length start_urls
          ∧ st' = fold_left
                    (crawl_seed_checked depth domain_restriction proxies)
                    (take (S k) start_urls) st
          ∧ line_149_raises start_urls st' = true
    end
  ∧ ((∀ base href, urljoin_raises base href = false) →
     (∀ url, urlparse_raises url = false) →
     seed_pass start_urls depth domain_restriction proxies start_urls st
     = Returned
         (fold_left (crawl_seed depth domain_restriction proxies) start_urls
            st)
     ∧ returns
         (λ fuel, bfs_crawl fuel start_urls depth domain_restriction proxies
                    st)
         (fold_left (crawl_seed depth domain_restriction proxies) start_urls
            st)).
Proof.
  split_and!.
  - unfold Crawler.bfs_crawl_checked. split.
    + intros fuel.
      destruct (bfs_loop_checked start_urls depth domain_restriction proxies
                  fuel (map (λ url, (url, 0%Z)) start_urls) st)
        as [outcome|] eqn:Hrun; [right|by left].
      rewrite <- (app_nil_r (map _ start_urls)) in Hrun.
      by apply bfs_loop_checked_pass in Hrun as ->.
    + destruct (bfs_loop_checked_returns start_urls depth domain_restriction
                  proxies start_urls [] st (Forall_nil_2 _)) as [fuel Hrun].
      exists fuel. by rewrite app_nil_r in Hrun.
  - apply seed_pass_prefix.
  - intros Hjoin Hparse. split; [|apply bfs_crawl_fold].
    pose proof (seed_pass_prefix start_urls depth domain_restriction proxies
                  start_urls st) as Hpass.
    destruct (seed_pass _ _ _ _ start_urls st) as [st'|st'].
    + by rewrite Hpass, crawl_seed_checked_total.
    + destruct Hpass as (k & _ & _ & Hraise).
      unfold Crawler.line_149_raises in Hraise.
      apply existsb_exists in Hraise as (u & _ & Hu).
      by rewrite !Hparse in Hu.
Qed.

(** ** The output file *)


End Raising.

(** * The spider-trap test *)

Lemma str_split_length sep s :
  length (str_split sep s) = S (count_char sep s).
Proof.
  induction s as [|c s IH]; simpl; [done|].
  destruct (Ascii.eqb c sep); simpl; [by rewrite IH|].
  destruct (str_split sep s); simpl in *; lia.
Qed.

Lemma size_list_to_set_dups (l : list string) :
  size (list_to_set l : gset string) = length (remove_dups l).
Proof.
  rewrite <- (size_list_to_set (C := gset string) (remove_dups l))
    by apply NoDup_remove_dups.
  f_equal. apply set_eq. intros x.
  by rewrite !elem_of_list_to_set, elem_of_remove_dups.
Qed.

Lemma is_spider_trap_ratio url :
  is_spider_trap url = true
  ↔ 2 * length (remove_dups (str_split "/" url)) < S (count_char "/" url).
Proof.
  unfold is_spider_trap.
  by rewrite bool_decide_eq_true, size_list_to_set_dups, str_split_length.
Qed.

Lemma remove_dups_pos (l : list string) :
  l ≠ [] → 0 < length (remove_dups l).
Proof.
  induction l as [|x l IH]; [done|]. intros _. simpl.
  case_decide as Hin; [|simpl; lia].
  apply IH. intros ->. by apply elem_of_nil in Hin.
Qed.

(** A URL with at most one [/], or whose pieces between the [/] are all
    different, is never flagged. *)
Theorem distinct_pieces_are_no_trap url :
  count_char "/" url ≤ 1 ∨ NoDup (str_split "/" url) →
  is_spider_trap url = false.
Proof.
  intros Hurl. apply bool_decide_eq_false.
  destruct Hurl as [Hfew|Hnodup].
  - rewrite size_list_to_set_dups, str_split_length.
    assert (0 < length (remove_dups (str_split "/" url))); [|lia].
    apply remove_dups_pos. intros Hnil%(f_equal length).
    by rewrite str_split_length in Hnil.
  - rewrite size_list_to_set by done. lia.
Qed.

Lemma str_split_app sep a b :
  str_split sep (String.append a (String sep b))
  = str_split sep a ++ str_split sep b.
Proof.
  induction a as [|c a IH]; simpl; [by rewrite Ascii.eqb_refl|].
  destruct (Ascii.eqb c sep); [by rewrite IH|].
  rewrite IH. pose proof (str_split_length sep a) as Hlen.
  by destruct (str_split sep a).
Qed.

Lemma str_split_one sep w :
  count_char sep w = 0 → str_split sep w = [w].
Proof.
  induction w as [|c w IH]; simpl; [done|].
  destruct (Ascii.eqb c sep); [done|]. simpl. intros Hw. by rewrite IH.
Qed.

Lemma str_split_add_segments url segment k :
  count_char "/" segment = 0 →
  str_split "/" (add_segments url segment k)
  = str_split "/" url ++ replicate k segment.
Proof.
  intros Hseg. revert url. induction k as [|k IH]; intros url; simpl;
    [by rewrite app_nil_r|].
  rewrite IH, str_split_app, (str_split_one _ _ Hseg).
  by rewrite <- app_assoc.
Qed.

Lemma remove_dups_replicate (w : string) k :
  length (remove_dups (replicate k w)) ≤ 1.
Proof.
  induction k as [|k IH]; simpl; [lia|].
  case_decide as Hin; [done|]. destruct k; simpl in *; [lia|].
  destruct Hin. by left.
Qed.

Lemma remove_dups_app_length (l r : list string) :
  length (remove_dups (l ++ r)) ≤ length l + length (remove_dups r).
Proof.
  induction l as [|x l IH]; simpl; [lia|]. case_decide; simpl; lia.
Qed.

(** The check does catch a long enough run of one path segment: a URL to
    which the same segment is appended at least three times more than the
    URL has [/]-separated pieces is flagged. *)
Theorem repeated_segment_is_flagged url segment k :
  count_char "/" segment = 0 →
  count_char "/" url + 4 ≤ k →
  is_spider_trap (add_segments url segment k) = true.
Proof.
  intros Hseg Hk. apply is_spider_trap_ratio.
  rewrite <- str_split_length, str_split_add_segments by done.
  pose proof (remove_dups_app_length (str_split "/" url)
                (replicate k segment)).
  pose proof (remove_dups_replicate segment k).
  rewrite length_app, length_replicate, str_split_length in *. lia.
Qed.

(** * Output files *)

Lemma append_inj_r (a b c : string) :
  String.append a b = String.append a c → b = c.
Proof. induction a as [|x a IH]; simpl; [done|]. intros [= ?]. auto. Qed.

(** The CSV file starts with a header of five columns, [Title] second,
    and goes on with one row per recorded page of four cells each: the
    URL, the description, the keywords and the images.  No cell holds a
    title, so the description stands under [Title] and every later cell is
    one column to the left of its heading. *)
Theorem csv_rows_have_no_title_cell (data : list Row) file_name
    (files : gmap string Written) :
  save_to_file data "csv" file_name files
    !! String.append file_name ".csv"
  = Some (Csv (csv_header :: map csv_row data))
  ∧ length csv_header = 5
  ∧ csv_header !! 1 = Some (Text "Title")
  ∧ Forall (λ cells, length cells = 4) (map csv_row data)
  ∧ (λ cells, cells !! 1) <$> map csv_row data
    = (λ r : Row, Some (Text r.1.1.2)) <$> data.
Proof.
  unfold save_to_file. simpl. rewrite lookup_insert_eq.
  split_and!; try done.
  - apply Forall_forall. by intros cells (r & -> & _)%list_elem_of_fmap.
  - induction data as [|r data IH]; simpl; [done|]. f_equal. exact IH.
Qed.


Import Examples.

Lemma loop_is_fetched n domain_restriction proxies :
  let st :=
    fetch_url join_absolute netloc_of (static loop_web) first_choice
      proxies domain_restriction (S (S n)) seed empty_state in
  (driver_log st).*1 = [seed; loop_url]
  ∧ row_url <$> save_results st = [seed; loop_url].
Proof.
  destruct proxies as [[|p ps]|], domain_restriction; vm_compute; done.
Qed.

(** C4, as the code has it.  [is_spider_trap] flags exactly the URLs in
    which the strings between the [/] characters of the whole URL (scheme
    and host included) have fewer distinct values than half their number:
    twice the distinct ones is less than the number of [/] plus one.
    [http://a.test/loop/loop/loop/] has seven such strings, four of them
    distinct, and is not flagged: in a crawl with depth at least 2 from a
    seed page that links to it, it is fetched and recorded. *)
Theorem spider_trap_is_a_ratio :
  (∀ url,
     is_spider_trap url = true
     ↔ 2 * length (remove_dups (str_split "/" url)) < S (count_char "/" url))
  ∧ is_spider_trap loop_url = false
  ∧ ∀ (depth : Z) domain_restriction proxies,
      (2 ≤ depth)%Z →
      ∃ fuel st',
        crawl (static loop_web) fuel [seed] depth domain_restriction proxies
          empty_state = Some st'
        ∧ loop_url ∈ (driver_log st').*1
        ∧ loop_url ∈ row_url <$> save_results st'.
Proof.
  split; [apply is_spider_trap_ratio|]. split; [by vm_compute|].
  intros depth domain_restriction proxies Hdepth.
  set (st1 := fetch_url join_absolute netloc_of (static loop_web)
                first_choice proxies domain_restriction
                (Z.to_nat (depth - 0)) seed empty_state).
  destruct (bfs_loop_returns join_absolute netloc_of (static loop_web)
              first_choice [seed] depth domain_restriction proxies _
              ([] ++ links_to_crawl netloc_of [seed] st1 0) st1 (le_n _))
    as (fuel & st' & Hrun).
  exists (S fuel), st'. split.
  - unfold crawl, web_crawler, bfs_crawl. simpl.
    rewrite bool_decide_eq_false_2 by lia. exact Hrun.
  - apply bfs_loop_extends in Hrun as (_ & gets & rows & -> & -> & _).
    subst st1.
    replace (Z.to_nat (depth - 0)) with (S (S (Z.to_nat (depth - 2))))
      by lia.
    destruct (loop_is_fetched (Z.to_nat (depth - 2)) domain_restriction
                proxies) as [Hlog Hrows].
    rewrite !fmap_app, Hlog, Hrows. split; apply elem_of_app; left;
      apply list_elem_of_In; simpl; auto.
Qed.

Lemma spider_trap_is_a_ratio_witness :
  ∃ fuel st',
    crawl (static loop_web) fuel [seed] 2 true None empty_state = Some st'
    ∧ loop_url ∈ (driver_log st').*1
    ∧ loop_url ∈ row_url <$> save_results st'.
Proof.
  apply (proj2 (proj2 spider_trap_is_a_ratio) 2%Z true None). lia.
Defined.

(** The link to [/loop/loop/loop/] of scenario B is not rejected: the
    crawl with depth 2 records the seed and then that page.  And a URL
    with ten path segments, none of them repeated in a row, is flagged. *)
Lemma loop_url_is_not_a_trap :
  is_spider_trap loop_url = false
  ∧ (λ st, row_url <$> save_results st)
      <$> crawl (static loop_web) 3 [seed] 2 false None empty_state
    = Some [seed; loop_url]
  ∧ is_spider_trap "http://x/a/b/a/b/a/b/a/b/a/b" = true.
Proof. by vm_compute. Qed.

(** * The one browser, on a chain of pages *)

Lemma chain_web_links u v :
  page_link join_absolute (static chain_web) u v ↔ (u, v) ∈ chain_links.
Proof.
  split.
  - intros (n & soup & link & Hget & Hin & <-).
    unfold static, chain_web in Hget. apply elem_of_list_to_map_2 in Hget.
    apply list_elem_of_In in Hget. simpl in Hget.
    repeat (destruct Hget as [[= <- <-]|Hget]); try done;
      apply list_elem_of_In in Hin; simpl in Hin;
      repeat (destruct Hin as [<-|Hin]); try done;
      apply list_elem_of_In; simpl; auto 10.
  - intros Hin. apply list_elem_of_In in Hin. simpl in Hin.
    repeat (destruct Hin as [[= <- <-]|Hin]); try done;
      (eexists 0, _, (a_href _); split; [vm_compute; reflexivity|];
       split; [|reflexivity]; apply list_elem_of_In; simpl; auto).
Qed.

Lemma chain_web_hops k v :
  hops join_absolute (static chain_web) [seed] k v ↔ (k, v) ∈ chain_hops.
Proof.
  split.
  - induction 1 as [s Hs|k u v _ IH Hlink].
    + apply list_elem_of_singleton in Hs as ->. by left.
    + apply chain_web_links in Hlink.
      apply list_elem_of_In in IH, Hlink. apply list_elem_of_In.
      unfold chain_hops, chain_links, hop, other_url, seed in *.
      simpl in *.
      repeat (destruct IH as [IH|IH]); try done;
        injection IH as <- <-;
        repeat (destruct Hlink as [Hlink|Hlink]); try done;
        try discriminate Hlink; injection Hlink as <-; auto 10.
  - assert (∀ k u v,
              hops join_absolute (static chain_web) [seed] k u →
              (u, v) ∈ chain_links →
              hops join_absolute (static chain_web) [seed] (S k) v)
      as Hnext.
    { intros k' u v' Hu Hlink%chain_web_links.
      by apply (hops_link _ _ _ _ u). }
    assert (hops join_absolute (static chain_web) [seed] 0 seed) as H0
      by (constructor; by left).
    assert (∀ u v, List.In (u, v) chain_links → (u, v) ∈ chain_links) as Hin
      by (intros u v' ?; by apply list_elem_of_In).
    pose proof (Hnext _ _ _ H0
                  (Hin seed (hop "1") ltac:(simpl; auto 10))) as H1.
    pose proof (Hnext _ _ _ H0
                  (Hin seed other_url ltac:(simpl; auto 10))) as H1'.
    pose proof (Hnext _ _ _ H1
                  (Hin (hop "1") (hop "2") ltac:(simpl; auto 10))) as H2.
    pose proof (Hnext _ _ _ H2
                  (Hin (hop "2") (hop "3") ltac:(simpl; auto 10))) as H3.
    pose proof (Hnext _ _ _ H3
                  (Hin (hop "3") (hop "4") ltac:(simpl; auto 10))) as H4.
    pose proof (Hnext _ _ _ H4
                  (Hin (hop "4") (hop "5") ltac:(simpl; auto 10))) as H5.
    intros Hk. apply list_elem_of_In in Hk. simpl in Hk.
    repeat (destruct Hk as [[= <- <-]|Hk]); done.
Qed.

(** C2 on the code.  The crawl of [chain_web] from the seed with depth 4:
    [bfs_crawl] calls [fetch_url(seed, 4)].  The seed links to [/1] and
    [/other]; [/1] leads on to [/2], [/3], [/4] and [/5], one link each, so
    [/5] is five links from the seed and [/4] four, and there is no other
    way to them.  Under [stale_read_schedule] the call for [/other], which
    has depth 3, calls [driver.get], the call for [/3], which has depth 1,
    calls [driver.get] next, and the call for [/other] then reads
    [driver.page_source]: it parses page 3, records it under [/other], and
    gives the link to [/4] to its pool with depth 2.  [/4] is fetched with
    depth 2 and [/5] with depth 1.  When every call reads the page it
    asked for, the same crawl stops at [/3]. *)
Theorem shared_browser_breaks_the_depth :
  mstep join_absolute netloc_of (static chain_web) first_choice max_workers
    [seed] 4 false None Next (crawl_start [seed] empty_state)
  = Some (mkMachine [] (Some (0%Z, Call seed 4)) empty_state)
  ∧ thread_of (Call seed 4) = TCall seed 4
  ∧ (∃ s,
       run_threads join_absolute netloc_of (static chain_web) first_choice
         max_workers None false stale_read_schedule (TCall seed 4)
         (mkShared empty_state None) = Some (TDone, s)
       ∧ driver_log (shared s)
         = [(seed, 4); (hop "1", 3); (hop "2", 2); (other_url, 3);
            (hop "3", 1); (hop "4", 2); (hop "5", 1)]
       ∧ (λ row : Row, (row_url row, row.1.1.2)) <$> save_results (shared s)
         = [(seed, "seed"); (hop "1", "page 1"); (hop "2", "page 2");
            (other_url, "page 3"); (hop "4", "page 4"); (hop "5", "page 5");
            (hop "3", "page 5")])
  ∧ (∀ k, hops join_absolute (static chain_web) [seed] k (hop "5") ↔ k = 5)
  ∧ (∀ k, hops join_absolute (static chain_web) [seed] k (hop "4") ↔ k = 4)
  ∧ ∃ s,
      run_threads join_absolute netloc_of (static chain_web) first_choice
        max_workers None false own_page_schedule (TCall seed 4)
        (mkShared empty_state None) = Some (TDone, s)
      ∧ driver_log (shared s)
        = [(seed, 4); (hop "1", 3); (hop "2", 2); (hop "3", 1);
           (other_url, 3)].
Proof.
  assert (∀ k v n,
            (n, v) ∈ chain_hops →
            (∀ j, (j, v) ∈ chain_hops → j = n) →
            hops join_absolute (static chain_web) [seed] k v ↔ k = n)
    as Honly.
  { intros k v n Hn Huniq. rewrite chain_web_hops. split; [apply Huniq|].
    by intros ->. }
  split_and!.
  - by vm_compute.
  - done.
  - eexists. split; [vm_compute; reflexivity|]. by vm_compute.
  - intros k. apply Honly; [apply list_elem_of_In; simpl; auto 10|].
    intros j Hj. apply list_elem_of_In in Hj. simpl in Hj.
    repeat (destruct Hj as [Hj|Hj]); try done; by inversion Hj.
  - intros k. apply Honly; [apply list_elem_of_In; simpl; auto 10|].
    intros j Hj. apply list_elem_of_In in Hj. simpl in Hj.
    repeat (destruct Hj as [Hj|Hj]); try done; by inversion Hj.
  - eexists. split; [vm_compute; reflexivity|]. by vm_compute.
Qed.

(** * The scenarios, run *)

Lemma crawl_stays_within_depth_witness :
  ∃ m,
    crawl_steps (static loop_web) [seed] 2 false None
      [Next; Inner Run; Inner Run] (crawl_start [seed] empty_state) = Some m
    ∧ ∃ gets,
        driver_log (store m) = driver_log empty_state ++ gets
        ∧ ∀ u r, (u, r) ∈ gets →
            ∃ k, k + r = Z.to_nat 2 ∧ 1 ≤ r
                 ∧ distance join_absolute (static loop_web) [seed] k u.
Proof.
  eexists. split; [vm_compute; reflexivity|].
  apply (crawl_stays_within_depth join_absolute netloc_of (static loop_web)
           first_choice max_workers [seed] 2 false None empty_state
           [Next; Inner Run; Inner Run]).
  vm_compute; reflexivity.
Defined.

(** C1 on the code.  The seed page links to [http://a.test/x] twice; the
    pool of the seed gives the two links to two workers, and both pass the
    test [url in visited_urls] before either has added the URL.  Both load
    the page and both append a row: the crawl ends with the URL fetched
    twice and recorded twice. *)
Theorem check_then_add_race :
  ∃ m,
    crawl_steps (static twin_web) [seed] 2 false None race_schedule
      (crawl_start [seed] empty_state) = Some m
    ∧ finished m
    ∧ driver_log (store m) = [(seed, 2); (twin_url, 1); (twin_url, 1)]
    ∧ row_url <$> save_results (store m) = [seed; twin_url; twin_url].
Proof.
  eexists. split; [vm_compute; reflexivity|]. by vm_compute.
Qed.

(** A second invocation on the same seed, in the process that has run the
    first: the seed is visited, so nothing is fetched and nothing is
    recorded, although the first invocation fetched it. *)
Lemma second_run_fetches_nothing :
  driver_log <$> crawl (static loop_web) 3 [seed] 2 false None empty_state
  = Some [(seed, 2); (loop_url, 1)]
  ∧ (λ st, (driver_log st, save_results st))
      <$> (crawl (static loop_web) 3 [seed] 2 false None empty_state
           ≫= crawl (static loop_web) 3 [seed] 2 false None)
    = Some ([(seed, 2); (loop_url, 1)], []).
Proof. by vm_compute. Qed.

Lemma visited_urls_outlive_the_run_witness :
  ∃ st',
    crawl (static loop_web) 3 [seed] 2 false None seen_state = Some st'
    ∧ visited_urls seen_state ⊆ visited_urls st'
    ∧ ∃ gets,
        driver_log st' = driver_log seen_state ++ gets
        ∧ ∀ u, u ∈ visited_urls seen_state →
            (u ∉ gets.*1) ∧ (u ∉ row_url <$> save_results st').
Proof.
  eexists. split; [vm_compute; reflexivity|].
  apply (visited_urls_outlive_the_run join_absolute netloc_of
           (static loop_web) first_choice 3 [seed] 2 false None seen_state).
  vm_compute; reflexivity.
Defined.

(** C5 on the code.  The browser times out on its first two calls and
    would answer the third.  [fetch_url] calls [driver.get] once, the
    handler logs the exception, and the crawl ends with one call made, no
    row and the seed not visited: the session with [Retry(total=5)] is
    never used for a fetch. *)
Theorem no_retry_after_a_timeout :
  flaky single_web 0 seed = None
  ∧ flaky single_web 1 seed = None
  ∧ flaky single_web 2 seed = Some (plain [])
  ∧ (λ st, (driver_log st, save_results st, elements (visited_urls st)))
      <$> crawl (flaky single_web) 3 [seed] 2 false None empty_state
    = Some ([(seed, 2)], [], []).
Proof. by vm_compute. Qed.

(** C6 on the code.  The seed page links to [http://a.test/private] with
    [rel="nofollow noopener"].  The test compares the token list with
    [['nofollow']], so the link is not skipped: the page is fetched and
    recorded. *)
Theorem nofollow_among_other_tokens_is_followed :
  rel_is_nofollow (mkAnchor private_url (Some ["nofollow"; "noopener"]))
  = false
  ∧ (λ st, (driver_log st, row_url <$> save_results st))
      <$> crawl (static nofollow_web) 3 [seed] 2 false None empty_state
    = Some ([(seed, 2); (private_url, 1)], [seed; private_url]).
Proof. by vm_compute. Qed.

(** C7 on the code.  With domain restriction on, the seed page on
    [a.test] names the canonical URL [http://b.test/] and links to
    [http://b.test/y] and [http://a.test/x].  The links are compared with
    the canonical URL, not with the seed: the page on [b.test] is fetched
    and the one on [a.test] is not. *)
Theorem canonical_link_leaves_the_domain :
  netloc_of seed = "a.test"
  ∧ netloc_of mirror_page = "b.test"
  ∧ (λ st, (driver_log st, row_url <$> save_results st))
      <$> crawl (static canonical_web) 3 [seed] 2 true None empty_state
    = Some ([(seed, 2); (mirror_page, 1)], [mirror_url; mirror_page]).
Proof. by vm_compute. Qed.

(** With the depth 3, the two workers of the seed's pool have each opened
    a pool of their own: three pools are open, and fourteen workers are
    busy, more than the [max_workers] of one pool. *)
Lemma workers_exceed_one_pool :
  ∃ m (cd : Z) f,
    crawl_steps (static fanout_web) [seed] 3 false None fanout_schedule
      (crawl_start [seed] empty_state) = Some m
    ∧ running m = Some (cd, f)
    ∧ open_pools f = 3
    ∧ busy_workers f = 14
    ∧ max_workers < busy_workers f.
Proof.
  do 3 eexists. split; [vm_compute; reflexivity|].
  split; [reflexivity|]. split_and!; [reflexivity|reflexivity|].
  vm_compute. lia.
Qed.

Lemma workers_bounded_by_depth_witness :
  ∃ m (cd : Z) f,
    crawl_steps (static fanout_web) [seed] 3 false None
      [Next; Inner Run; Inner Run; Inner Take; Inner Take]
      (crawl_start [seed] empty_state) = Some m
    ∧ running m = Some (cd, f)
    ∧ widest_pool f ≤ max_workers
    ∧ busy_workers f ≤ worker_bound max_workers (Z.to_nat 3).
Proof.
  do 3 eexists. split; [vm_compute; reflexivity|].
  split; [reflexivity|].
  pose proof (workers_bounded_by_depth join_absolute netloc_of
                (static fanout_web) first_choice max_workers [seed] 3 false
                None empty_state
                [Next; Inner Run; Inner Run; Inner Take; Inner Take]
                _ _ _ ltac:(vm_compute; reflexivity) eq_refl)
    as (Hwide & Hbusy & _).
  exact (conj Hwide Hbusy).
Defined.

Lemma loop_web_is_finite n u soup :
  static loop_web n u = Some soup → length (anchors soup) ≤ 1.
Proof.
  unfold static, loop_web. intros H%elem_of_list_to_map_2.
  apply list_elem_of_In in H. simpl in H.
  destruct H as [[= <- <-]|[[= <- <-]|[]]]; simpl; lia.
Defined.

Lemma crawl_terminates_witness :
  ∃ fuel st',
    crawl (static loop_web) fuel [seed] 2 false None empty_state = Some st'.
Proof.
  apply (crawl_terminates join_absolute netloc_of (static loop_web)
           first_choice max_workers 1 [seed] 2 false None empty_state).
  - unfold max_workers. lia.
  - apply loop_web_is_finite.
Defined.

(** * The further properties, at concrete inputs *)

Lemma idle_crawl_overwrites_the_output_witness :
  returns
    (λ fuel, web_crawler_files join_absolute netloc_of (static loop_web)
               first_choice fuel [seed] 0 false None "csv" empty_state ∅)
    (empty_state, save_to_file [] "csv" "crawled_data" ∅).
Proof.
  apply (idle_crawl_overwrites_the_output join_absolute netloc_of
           (static loop_web) first_choice [seed] 0 false None "csv"
           empty_state ∅).
  left. lia.
Defined.


Lemma page_without_meta_content_is_lost_witness :
  observable
    (fetch_url join_absolute netloc_of (static no_content_web) first_choice
       None false 2 seed empty_state)
  = ({[seed]} ∪ ∅, [], [] ++ [(seed, 2)]).
Proof.
  apply (page_without_meta_content_is_lost join_absolute netloc_of
           (static no_content_web) first_choice None false 1 seed
           empty_state no_content_page seed);
    vm_compute; reflexivity.
Defined.

Lemma canonical_link_without_href_drops_the_page_witness :
  observable
    (fetch_url join_absolute netloc_of (static no_href_web) first_choice
       None false 2 seed empty_state)
  = (∅, [], [] ++ [(seed, 2)]).
Proof.
  apply (canonical_link_without_href_drops_the_page join_absolute netloc_of
           (static no_href_web) first_choice None false 1 seed empty_state
           no_href_page);
    vm_compute; reflexivity.
Defined.

Lemma canonical_page_is_recorded_twice_witness :
  row_url
    <$> (observable
           (fetch_url join_absolute netloc_of (static canonical_web)
              first_choice None true 1 seed
              (fetch_url join_absolute netloc_of (static canonical_web)
                 first_choice None true 1 seed empty_state))).1.2
  = [mirror_url; seed].
Proof.
  pose proof (canonical_page_is_recorded_twice join_absolute netloc_of
                (static canonical_web) first_choice None true 0 seed
                empty_state
                (mkPage (Value mirror_url) NoTag NoTag []
                   [a_href mirror_page; a_href "http://a.test/x"])
                mirror_url (mkContent "" "" [])
                (λ n, eq_refl) eq_refl ltac:(discriminate)
                (not_elem_of_empty _) (not_elem_of_empty _) eq_refl eq_refl)
    as (_ & _ & Htwice).
  destruct (Htwice (or_introl eq_refl)) as [_ ->]. reflexivity.
Defined.

Lemma crawl_fetches_are_bounded_witness :
  ∃ st',
    crawl (static loop_web) 3 [seed] 2 false None empty_state = Some st'
    ∧ length (driver_log st')
      ≤ length (driver_log empty_state)
        + length [seed] * fetch_bound 1 (Z.to_nat 2).
Proof.
  eexists. split; [vm_compute; reflexivity|].
  apply (crawl_fetches_are_bounded join_absolute netloc_of (static loop_web)
           first_choice 1 3 [seed] 2 false None empty_state).
  - apply loop_web_is_finite.
  - vm_compute; reflexivity.
Defined.

Lemma shared_state_only_grows_witness :
  ∃ m0 m,
    crawl_steps (static twin_web) [seed] 2 false None (take 7 race_schedule)
      (crawl_start [seed] empty_state) = Some m0
    ∧ crawl_steps (static twin_web) [seed] 2 false None
        (drop 7 race_schedule) m0 = Some m
    ∧ ∃ gets rows,
        driver_log (store m) = driver_log (store m0) ++ gets
        ∧ save_results (store m) = save_results (store m0) ++ rows
        ∧ length rows ≤ length gets
        ∧ Forall (λ row, row_url row ∈ visited_urls (store m)) rows.
Proof.
  do 2 eexists. split; [vm_compute; reflexivity|].
  split; [vm_compute; reflexivity|].
  apply (shared_state_only_grows join_absolute netloc_of (static twin_web)
           first_choice max_workers [seed] 2 false None
           (drop 7 race_schedule)).
  vm_compute; reflexivity.
Defined.


Lemma distinct_pieces_are_no_trap_witness :
  is_spider_trap "a.test/x" = false.
Proof.
  apply distinct_pieces_are_no_trap. left. vm_compute. lia.
Defined.

Lemma repeated_segment_is_flagged_witness :
  is_spider_trap (add_segments "http://a.test" "x" 6) = true.
Proof.
  apply repeated_segment_is_flagged; vm_compute; [reflexivity|lia].
Defined.

Lemma rows_are_distinct_in_order_witness :
  ∃ st',
    crawl (static twin_web) 3 [seed] 2 false None empty_state = Some st'
    ∧ NoDup (row_url <$> save_results st').
Proof.
  eexists. split; [vm_compute; reflexivity|].
  apply (rows_are_distinct_in_order join_absolute netloc_of (static twin_web)
           first_choice 3 [seed] 2 false None empty_state).
  vm_compute; reflexivity.
Defined.

Lemma loop_web_has_no_canonical n u soup h :
  static loop_web n u = Some soup → canonical soup = Value h →
  netloc_of h = netloc_of u.
Proof.
  unfold static, loop_web. intros H%elem_of_list_to_map_2.
  apply list_elem_of_In in H. simpl in H.
  destruct H as [[= <- <-]|[[= <- <-]|[]]]; simpl; discriminate.
Defined.

Lemma restriction_holds_without_foreign_canonical_witness :
  ∃ gets,
    driver_log
      (fetch_url join_absolute netloc_of (static loop_web) first_choice
         None true 2 seed empty_state)
    = driver_log empty_state ++ gets
    ∧ ∀ g, g ∈ gets → netloc_of g.1 = netloc_of seed.
Proof.
  apply (restriction_holds_without_foreign_canonical join_absolute netloc_of
           (static loop_web) first_choice None 2 seed empty_state).
  apply loop_web_has_no_canonical.
Defined.

Lemma failed_get_is_not_retried_witness :
  observable
    (fetch_url join_absolute netloc_of (flaky single_web) first_choice
       None false 2 seed empty_state)
  = (∅, [], [] ++ [(seed, 2)]).
Proof.
  apply (failed_get_is_not_retried join_absolute netloc_of
           (flaky single_web) first_choice None false 1 seed empty_state);
    vm_compute; reflexivity.
Defined.
